(** * hyper-shell client pipeline: scheduler, executors, collector, coordinator

    A shallow embedding of [hypershell/client.py].  Every finite-state machine
    of the client is a record of its attributes together with one function
    per method; the objects the threads share (the remote queue client, the
    two local queues, the wall clock) live in a store that the methods thread
    through a state-and-exception monad.  The concurrent client is the
    interleaving of the threads' atomic steps under an arbitrary schedule. *)

From Stdlib Require Import ZArith QArith String Ascii List Bool Lia.
From stdpp Require Import base tactics option list.
Import ListNotations.

Local Open Scope Z_scope.
Local Open Scope list_scope.

(** ** Python values *)

(** [bytes]: a packed task, and the encoded terminal id. *)
Definition bytes := list Byte.byte.

(** A [str] is kept as its UTF-8 bytes, so [str.encode()] is the byte list. *)
Definition encode (s : string) : bytes := String.list_byte_of_string s.

(** Exceptions the client code can raise. *)
Inductive exn :=
| IndexError
| AttributeError
| TypeError
| SpawnError.

(** Instants of the wall clock ([datetime.now()]), in microseconds. *)
Definition datetime := Z.

(** ** [hypershell.database.model.Task] *)

Module Task.

Record t := Build {
  id : string;
  args : string;
  command : option string;
  start_time : option datetime;
  completion_time : option datetime;
  exit_status : option Z;
  client_host : option string }.

Definition set_command (v : string) (x : t) : t :=
  Build (id x) (args x) (Some v) (start_time x) (completion_time x)
        (exit_status x) (client_host x).
Definition set_start_time (v : datetime) (x : t) : t :=
  Build (id x) (args x) (command x) (Some v) (completion_time x)
        (exit_status x) (client_host x).
Definition set_completion_time (v : datetime) (x : t) : t :=
  Build (id x) (args x) (command x) (start_time x) (Some v)
        (exit_status x) (client_host x).
Definition set_exit_status (v : Z) (x : t) : t :=
  Build (id x) (args x) (command x) (start_time x) (completion_time x)
        (Some v) (client_host x).
Definition set_client_host (v : string) (x : t) : t :=
  Build (id x) (args x) (command x) (start_time x) (completion_time x)
        (exit_status x) (Some v).

(** A task as the server sends it: id and args only. *)
Definition fresh (i a : string) : t := Build i a None None None None None.

End Task.

(** The parts of the package that [client.py] imports and that are not part
    of the client itself: the task codec of [hypershell.database.model], the
    host name of [hypershell.core.logging] and the defaults of
    [hypershell.core.config]. *)
Class Platform := {
  unpack : bytes -> Task.t;
  pack : Task.t -> bytes;
  HOSTNAME : string;
  DEFAULT_BUNDLESIZE : Z;
  DEFAULT_BUNDLEWAIT : Z }.

(** ** [queue.Queue] *)

Module Queue.

Record t (A : Type) := Build { items : list A; maxsize : Z }.
Arguments Build {A} _ _.
Arguments items {A} _.
Arguments maxsize {A} _.

(** [Queue(maxsize)]: a queue with [maxsize <= 0] is unbounded. *)
Definition new {A} (maxsize : Z) : t A := Build [] maxsize.

Definition full {A} (q : t A) : bool :=
  (0 <? maxsize q) && (maxsize q <=? Z.of_nat (length (items q))).

(** [put]: [None] stands for [queue.Full] (the queue stayed full for the
    whole timeout). *)
Definition put {A} (x : A) (q : t A) : option (t A) :=
  if full q then None else Some (Build (items q ++ [x]) (maxsize q)).

(** [get]: [None] stands for [queue.Empty]. *)
Definition get {A} (q : t A) : option (A * t A) :=
  match items q with
  | [] => None
  | x :: rest => Some (x, Build rest (maxsize q))
  end.

End Queue.

(** ** [hypershell.core.queue.QueueClient]

    The three channels to the server.  [scheduled] holds what the server has
    sent and the scheduler has not yet read; [completed] and [terminator]
    hold what the client has published, oldest first.  A bundle put on
    [completed] crosses the network, so the server's copy is not affected by
    the collector clearing its own list afterwards. *)

Module QueueClient.

Record t := Build {
  scheduled : list (option (list bytes));
  completed : list (list bytes);
  terminator : list bytes }.

Definition new : t := Build [] [] [].

End QueueClient.

(** ** The shared store *)

(** The two local queues are created once by the coordinator and handed to
    the machines by reference. *)
Inductive queue_ref := Inbound | Outbound.

Inductive actor :=
| Coordinator
| Scheduler
| Collector
| Executor (id : nat).

(** What a thread does to the world outside itself. *)
Inductive event :=
| GetScheduled (b : option (list bytes))
| PutLocal (q : queue_ref) (x : option Task.t)
| GetLocal (q : queue_ref) (x : option Task.t)
| PutCompleted (b : list bytes)
| PutTerminator (b : bytes)
| Popen (command task_id task_args : string)
| Exited (status : Z)
| Started (a : actor)
| Joined (a : actor).

Module Store.

Record t := Build {
  client : QueueClient.t;
  inbound : Queue.t (option Task.t);
  outbound : Queue.t (option Task.t);
  clock : datetime;
  log : list (actor * event) }.

Definition local (r : queue_ref) (s : t) : Queue.t (option Task.t) :=
  match r with Inbound => inbound s | Outbound => outbound s end.

Definition set_local (r : queue_ref) (q : Queue.t (option Task.t)) (s : t) : t :=
  match r with
  | Inbound => Build (client s) q (outbound s) (clock s) (log s)
  | Outbound => Build (client s) (inbound s) q (clock s) (log s)
  end.

Definition set_client (c : QueueClient.t) (s : t) : t :=
  Build c (inbound s) (outbound s) (clock s) (log s).

Definition set_clock (c : datetime) (s : t) : t :=
  Build (client s) (inbound s) (outbound s) c (log s).

Definition record (a : actor) (e : event) (s : t) : t :=
  Build (client s) (inbound s) (outbound s) (clock s) (log s ++ [(a, e)]).

End Store.

(** ** Methods: state and exceptions

    A method of an object runs on the pair of the object's own attributes
    and the shared store; it returns a value or raises, and in both cases
    the assignments made so far stay made. *)

Inductive result (S A : Type) :=
| Return (a : A) (s : S)
| Raise (e : exn) (s : S).
Arguments Return {S A} _ _.
Arguments Raise {S A} _ _.

Definition M (S A : Type) := S -> result S A.

Definition ret {S A} (a : A) : M S A := fun s => Return a s.

Definition raise {S A} (e : exn) : M S A := fun s => Raise e s.

Definition bind {S A B} (c : M S A) (k : A -> M S B) : M S B :=
  fun s => match c s with
           | Return a s' => k a s'
           | Raise e s' => Raise e s'
           end.

Declare Scope method_scope.
Delimit Scope method_scope with method.
Notation "x <- c ;; k" := (bind c (fun x => k))
  (at level 100, c at next level, right associativity) : method_scope.
Notation "c ;; k" := (bind c (fun _ => k))
  (at level 100, right associativity) : method_scope.
Local Open Scope method_scope.

Definition method (Self A : Type) := M (Self * Store.t) A.

(** [self.attr] *)
Definition attr {Self A} (f : Self -> A) : method Self A :=
  fun '(self, st) => Return (f self) (self, st).

(** [self.attr = v] *)
Definition assign {Self} (f : Self -> Self) : method Self unit :=
  fun '(self, st) => Return tt (f self, st).

(** An operation on the shared store, called from a method. *)
Definition shared {Self A} (c : M Store.t A) : method Self A :=
  fun '(self, st) => match c st with
                     | Return a st' => Return a (self, st')
                     | Raise e st' => Raise e (self, st')
                     end.

(** An attribute that was never assigned, or holds [None], has no
    attributes of its own. *)
Definition defined {S A} (x : option A) : M S A :=
  match x with
  | Some a => ret a
  | None => raise AttributeError
  end.

(** [datetime.now()] *)
Definition now : M Store.t datetime := fun s => Return (Store.clock s) s.

Definition emit (a : actor) (e : event) : M Store.t unit :=
  fun s => Return tt (Store.record a e s).

(** [q.put(x, timeout=...)] on a local queue: [false] for [queue.Full]. *)
Definition local_put (a : actor) (r : queue_ref) (x : option Task.t) : M Store.t bool :=
  fun s => match Queue.put x (Store.local r s) with
           | Some q => Return true (Store.record a (PutLocal r x) (Store.set_local r q s))
           | None => Return false s
           end.

(** [q.get(timeout=...)] on a local queue: [None] for [queue.Empty].  (The
    [task_done] that follows some of the calls only maintains the counter
    behind [Queue.join], which the client never calls.) *)
Definition local_get (a : actor) (r : queue_ref) : M Store.t (option (option Task.t)) :=
  fun s => match Queue.get (Store.local r s) with
           | Some (x, q) => Return (Some x) (Store.record a (GetLocal r x) (Store.set_local r q s))
           | None => Return None s
           end.

(** [queue.scheduled.get(timeout=2)]: [None] for [queue.Empty]. *)
Definition scheduled_get : M Store.t (option (option (list bytes))) :=
  fun s => match QueueClient.scheduled (Store.client s) with
           | [] => Return None s
           | b :: rest =>
               let c := Store.client s in
               Return (Some b)
                 (Store.record Scheduler (GetScheduled b)
                    (Store.set_client
                       (QueueClient.Build rest (QueueClient.completed c) (QueueClient.terminator c)) s))
           end.

(** [queue.completed.put(bundle)] *)
Definition completed_put (b : list bytes) : M Store.t unit :=
  fun s => let c := Store.client s in
           Return tt
             (Store.record Collector (PutCompleted b)
                (Store.set_client
                   (QueueClient.Build (QueueClient.scheduled c) (QueueClient.completed c ++ [b])
                      (QueueClient.terminator c)) s)).

(** [client.terminator.put(data)] *)
Definition terminator_put (b : bytes) : M Store.t unit :=
  fun s => let c := Store.client s in
           Return tt
             (Store.record Coordinator (PutTerminator b)
                (Store.set_client
                   (QueueClient.Build (QueueClient.scheduled c) (QueueClient.completed c)
                      (QueueClient.terminator c ++ [b])) s)).

(** ** [ClientScheduler] *)

Module SchedulerState.
Inductive t := START | GET_REMOTE | UNPACK | POP_TASK | PUT_LOCAL | HALT.
End SchedulerState.

Module ClientScheduler.
Import SchedulerState.

Record t := Build {
  local : queue_ref;
  bundle : option (list bytes);
  task : option Task.t;
  tasks : list Task.t;
  final_task_id : option string;
  state : SchedulerState.t }.

Definition set_bundle (v : option (list bytes)) (m : t) : t :=
  Build (local m) v (task m) (tasks m) (final_task_id m) (state m).
Definition set_task (v : Task.t) (m : t) : t :=
  Build (local m) (bundle m) (Some v) (tasks m) (final_task_id m) (state m).
Definition set_tasks (v : list Task.t) (m : t) : t :=
  Build (local m) (bundle m) (task m) v (final_task_id m) (state m).
Definition set_final_task_id (v : string) (m : t) : t :=
  Build (local m) (bundle m) (task m) (tasks m) (Some v) (state m).
Definition set_state (v : SchedulerState.t) (m : t) : t :=
  Build (local m) (bundle m) (task m) (tasks m) (final_task_id m) v.

(** [__init__]: [bundle] and [tasks] start empty, [task] is not assigned,
    and [final_task_id] and [state] keep their class-level values. *)
Definition init (local : queue_ref) : t :=
  Build local (Some []) None [] None START.

Section Methods.
Context `{Platform}.

Definition start : method t SchedulerState.t :=
  ret GET_REMOTE.

Definition get_remote : method t SchedulerState.t :=
  got <- shared scheduled_get ;;
  match got with
  | Some b =>
      assign (set_bundle b) ;;
      match b with
      | Some _ => ret UNPACK
      | None => ret HALT
      end
  | None => ret GET_REMOTE
  end.

(** [self.tasks[-1]] raises [IndexError] on an empty list; iterating over
    [None] raises [TypeError]. *)
Definition unpack_bundle : method t SchedulerState.t :=
  b <- attr bundle ;;
  match b with
  | None => raise TypeError
  | Some data =>
      assign (set_tasks (map unpack data)) ;;
      ts <- attr tasks ;;
      match last ts with
      | None => raise IndexError
      | Some final =>
          assign (set_final_task_id (Task.id final)) ;;
          ret POP_TASK
      end
  end.

Definition pop_task : method t SchedulerState.t :=
  ts <- attr tasks ;;
  match ts with
  | x :: rest =>
      assign (set_tasks rest) ;;
      assign (set_task x) ;;
      ret PUT_LOCAL
  | [] => ret GET_REMOTE
  end.

Definition put_local : method t SchedulerState.t :=
  r <- attr local ;;
  x <- attr task ;;
  x <- defined x ;;
  ok <- shared (local_put Scheduler r (Some x)) ;;
  if ok : bool then ret POP_TASK else ret PUT_LOCAL.

(** The [actions] table; [HALT] has no entry. *)
Definition actions (st : SchedulerState.t) : option (method t SchedulerState.t) :=
  match st with
  | START => Some start
  | GET_REMOTE => Some get_remote
  | UNPACK => Some unpack_bundle
  | POP_TASK => Some pop_task
  | PUT_LOCAL => Some put_local
  | HALT => None
  end.

End Methods.

End ClientScheduler.

(** ** [ClientCollector] *)

Module CollectorState.
Inductive t := START | GET_LOCAL | CHECK_BUNDLE | PACK_BUNDLE | PUT_REMOTE | FINALIZE | HALT.
End CollectorState.

(** [timedelta.total_seconds()] of a difference of two instants. *)
Definition total_seconds (microseconds : Z) : Q := microseconds # 1000000.

Module ClientCollector.
Import CollectorState.

Record t := Build {
  local : queue_ref;
  tasks : list Task.t;
  bundle : list bytes;
  bundlesize : Z;
  bundlewait : Z;
  previous_send : option datetime;
  state : CollectorState.t }.

Definition set_tasks (v : list Task.t) (m : t) : t :=
  Build (local m) v (bundle m) (bundlesize m) (bundlewait m) (previous_send m) (state m).
Definition set_bundle (v : list bytes) (m : t) : t :=
  Build (local m) (tasks m) v (bundlesize m) (bundlewait m) (previous_send m) (state m).
Definition set_previous_send (v : datetime) (m : t) : t :=
  Build (local m) (tasks m) (bundle m) (bundlesize m) (bundlewait m) (Some v) (state m).
Definition set_state (v : CollectorState.t) (m : t) : t :=
  Build (local m) (tasks m) (bundle m) (bundlesize m) (bundlewait m) (previous_send m) v.

(** [__init__]; [previous_send] is first assigned by [start]. *)
Definition init (local : queue_ref) (bundlesize bundlewait : Z) : t :=
  Build local [] [] bundlesize bundlewait None START.

Section Methods.
Context `{Platform}.

Definition start : method t CollectorState.t :=
  t0 <- shared now ;;
  assign (set_previous_send t0) ;;
  ret GET_LOCAL.

Definition get_local : method t CollectorState.t :=
  r <- attr local ;;
  got <- shared (local_get Collector r) ;;
  match got with
  | Some (Some task) =>
      ts <- attr tasks ;;
      assign (set_tasks (ts ++ [task])) ;;
      ret CHECK_BUNDLE
  | Some None => ret FINALIZE
  | None => ret CHECK_BUNDLE
  end.

Definition check_bundle : method t CollectorState.t :=
  t1 <- shared now ;;
  prev <- attr previous_send ;;
  prev <- defined prev ;;
  let wait_time := t1 - prev in
  let since_last := total_seconds wait_time in
  ts <- attr tasks ;;
  size <- attr bundlesize ;;
  wait <- attr bundlewait ;;
  if size <=? Z.of_nat (length ts) then ret PACK_BUNDLE
  else if Qle_bool (inject_Z wait) since_last then ret PACK_BUNDLE
  else ret GET_LOCAL.

Definition pack_bundle : method t CollectorState.t :=
  ts <- attr tasks ;;
  assign (set_bundle (map pack ts)) ;;
  ret PUT_REMOTE.

Definition put_remote : method t CollectorState.t :=
  b <- attr bundle ;;
  match b with
  | _ :: _ =>
      shared (completed_put b) ;;
      assign (set_tasks []) ;;
      assign (set_bundle []) ;;
      t1 <- shared now ;;
      assign (set_previous_send t1) ;;
      ret GET_LOCAL
  | [] => ret GET_LOCAL
  end.

Definition finalize : method t CollectorState.t :=
  put_remote ;;
  ret HALT.

Definition actions (st : CollectorState.t) : option (method t CollectorState.t) :=
  match st with
  | START => Some start
  | GET_LOCAL => Some get_local
  | CHECK_BUNDLE => Some check_bundle
  | PACK_BUNDLE => Some pack_bundle
  | PUT_REMOTE => Some put_remote
  | FINALIZE => Some finalize
  | HALT => None
  end.

End Methods.

End ClientCollector.

(** ** [TaskExecutor] *)

(** [str.replace(old, new)]: every occurrence of [old], found left to right
    without overlap, is replaced by [new]; with an empty [old], [new] is put
    before every character and at the end. *)
Fixpoint replace_from (old new : string) (skip : nat) (s : string) : string :=
  match s with
  | EmptyString => EmptyString
  | String c rest =>
      match skip with
      | S k => replace_from old new k rest
      | O =>
          if String.prefix old s
          then String.append new (replace_from old new (String.length old - 1) rest)
          else String c (replace_from old new 0 rest)
      end
  end.

Fixpoint interleave (new s : string) : string :=
  String.append new
    match s with
    | EmptyString => EmptyString
    | String c rest => String c (interleave new rest)
    end.

Definition replace (old new s : string) : string :=
  match old with
  | EmptyString => interleave new s
  | _ => replace_from old new 0 s
  end.

(** The substitution marker of a template. *)
Definition marker : string := "{}"%string.

Definition DEFAULT_TEMPLATE : string := "{}"%string.

Module TaskState.
Inductive t := START | GET_LOCAL | START_TASK | WAIT_TASK | PUT_LOCAL | FINALIZE | HALT.
End TaskState.

(** What the operating system answers to an executor during one step:
    whether creating the child process fails, and whether the child has
    exited ([None]: still running, so [wait] times out). *)
Record os := OS { popen_fails : bool; wait_returns : option Z }.

Module TaskExecutor.
Import TaskState.

Record t := Build {
  id : nat;
  template : string;
  inbound : queue_ref;
  outbound : queue_ref;
  task : option Task.t;
  process : option string;
  state : TaskState.t }.

Definition set_task (v : option Task.t) (m : t) : t :=
  Build (id m) (template m) (inbound m) (outbound m) v (process m) (state m).
Definition set_process (v : string) (m : t) : t :=
  Build (id m) (template m) (inbound m) (outbound m) (task m) (Some v) (state m).
Definition set_state (v : TaskState.t) (m : t) : t :=
  Build (id m) (template m) (inbound m) (outbound m) (task m) (process m) v.

(** [__init__]; [task] and [process] are not assigned yet. *)
Definition init (id : nat) (inbound outbound : queue_ref) (template : string) : t :=
  Build id template inbound outbound None None START.

(** [self.task.attr = v] *)
Definition assign_task (f : Task.t -> Task.t) : method t unit :=
  x <- attr task ;;
  x <- defined x ;;
  assign (set_task (Some (f x))).

Section Methods.
Context `{Platform}.

Definition start : method t TaskState.t :=
  ret GET_LOCAL.

(** A task object is truthy; the sentinel [None] is not. *)
Definition get_local : method t TaskState.t :=
  me <- attr id ;;
  r <- attr inbound ;;
  got <- shared (local_get (Executor me) r) ;;
  match got with
  | Some x =>
      assign (set_task x) ;;
      match x with
      | Some _ => ret START_TASK
      | None => ret FINALIZE
      end
  | None => ret GET_LOCAL
  end.

(** [Popen] is not guarded: when it raises, [start_task] raises. *)
Definition start_task (o : os) : method t TaskState.t :=
  me <- attr id ;;
  tpl <- attr template ;;
  x <- attr task ;;
  x <- defined x ;;
  assign_task (Task.set_command (replace marker (Task.args x) tpl)) ;;
  t0 <- shared now ;;
  assign_task (Task.set_start_time t0) ;;
  assign_task (Task.set_client_host HOSTNAME) ;;
  x <- attr task ;;
  x <- defined x ;;
  cmd <- defined (Task.command x) ;;
  if popen_fails o then raise SpawnError
  else
    shared (emit (Executor me) (Popen cmd (Task.id x) (Task.args x))) ;;
    assign (set_process cmd) ;;
    ret WAIT_TASK.

Definition wait_task (o : os) : method t TaskState.t :=
  me <- attr id ;;
  p <- attr process ;;
  _ <- defined p ;;
  match wait_returns o with
  | Some status =>
      shared (emit (Executor me) (Exited status)) ;;
      assign_task (Task.set_exit_status status) ;;
      t1 <- shared now ;;
      assign_task (Task.set_completion_time t1) ;;
      ret PUT_LOCAL
  | None => ret WAIT_TASK
  end.

Definition put_local : method t TaskState.t :=
  me <- attr id ;;
  r <- attr outbound ;;
  x <- attr task ;;
  ok <- shared (local_put (Executor me) r x) ;;
  if ok : bool then ret GET_LOCAL else ret PUT_LOCAL.

Definition finalize : method t TaskState.t :=
  ret HALT.

Definition actions (o : os) (st : TaskState.t) : option (method t TaskState.t) :=
  match st with
  | START => Some start
  | GET_LOCAL => Some get_local
  | START_TASK => Some (start_task o)
  | WAIT_TASK => Some (wait_task o)
  | PUT_LOCAL => Some put_local
  | FINALIZE => Some finalize
  | HALT => None
  end.

End Methods.

End TaskExecutor.

(** ** Threads *)

Inductive status :=
| Created
| Running
| Finished
| Crashed (e : exn).

Module Thread.

Record t (Machine : Type) := Build { status : status; machine : Machine }.
Arguments Build {Machine} _ _.
Arguments status {Machine} _.
Arguments machine {Machine} _.

Definition new {Machine} (m : Machine) : t Machine := Build Created m.

(** [Thread.start()] *)
Definition start {Machine} (th : t Machine) : t Machine :=
  match status th with
  | Created => Build Running (machine th)
  | _ => th
  end.

(** Modelled from the spec: the run loop of
    [hypershell.core.fsm.StateMachine] and the thread of
    [hypershell.core.thread.Thread] that drives it, neither of which is
    part of [client.py].  A machine has a state-to-handler table and a
    single-threaded run loop; one turn of the loop calls the handler of the
    current state and makes its result the new state, and the loop exits
    at [HALT], the state without a handler.  An exception that escapes a
    handler ends the thread.  (The halt flag is only set from outside on
    abnormal termination and is left out.) *)
Definition step {Machine State}
    (state : Machine -> State) (set_state : State -> Machine -> Machine)
    (actions : State -> option (method Machine State))
    (th : t Machine) (st : Store.t) : t Machine * Store.t :=
  match status th with
  | Running =>
      match actions (state (machine th)) with
      | Some action =>
          match action (machine th, st) with
          | Return next (m, st') => (Build Running (set_state next m), st')
          | Raise e (m, st') => (Build (Crashed e) m, st')
          end
      | None => (Build Finished (machine th), st)
      end
  | _ => (th, st)
  end.

End Thread.

(** ** [ClientThread]: the coordinator *)

Module ClientThread.

(** The calls on threads and local queues that [run] makes, one after the
    other; each is one atomic step of the coordinator. *)
Inductive call :=
| Start (who : actor)          (* thread.start() *)
| Join (who : actor)           (* thread.join() *)
| Signal (r : queue_ref).      (* queue.put(None) *)

Record t := Build {
  num_tasks : nat;
  scheduler : Thread.t ClientScheduler.t;
  collector : Thread.t ClientCollector.t;
  executors : list (Thread.t TaskExecutor.t);
  pc : nat;
  error : option exn }.

Definition set_scheduler (v : Thread.t ClientScheduler.t) (w : t) : t :=
  Build (num_tasks w) v (collector w) (executors w) (pc w) (error w).
Definition set_collector (v : Thread.t ClientCollector.t) (w : t) : t :=
  Build (num_tasks w) (scheduler w) v (executors w) (pc w) (error w).
Definition set_executors (v : list (Thread.t TaskExecutor.t)) (w : t) : t :=
  Build (num_tasks w) (scheduler w) (collector w) v (pc w) (error w).
Definition set_pc (v : nat) (w : t) : t :=
  Build (num_tasks w) (scheduler w) (collector w) (executors w) v (error w).
Definition set_error (v : exn) (w : t) : t :=
  Build (num_tasks w) (scheduler w) (collector w) (executors w) (pc w) (Some v).

(** The executor threads carry the ids [1 .. num_tasks], in list order. *)
Definition executor_ids (n : nat) : list actor :=
  map (fun count => Executor (count + 1)) (seq 0 n).

Definition start_threads (n : nat) : list call :=
  [Start Scheduler; Start Collector] ++ map Start (executor_ids n).

Definition wait_scheduler : list call :=
  [Join Scheduler].

Definition wait_executors (n : nat) : list call :=
  repeat (Signal Inbound) n ++ map Join (executor_ids n).

Definition wait_collector : list call :=
  [Signal Outbound; Join Collector].

(** [run], with [n] executors in [self.executors], up to the call of
    [register_final_task]. *)
Definition shutdown (n : nat) : list call :=
  start_threads n ++ wait_scheduler ++ wait_executors n ++ wait_collector.

(** What a call leaves in the log. *)
Definition event_of (c : call) : event :=
  match c with
  | Start who => Started who
  | Join who => Joined who
  | Signal r => PutLocal r None
  end.

Definition status_of (who : actor) (w : t) : option status :=
  match who with
  | Scheduler => Some (Thread.status (scheduler w))
  | Collector => Some (Thread.status (collector w))
  | Executor (S k) => Thread.status <$> executors w !! k
  | Executor O => None
  | Coordinator => None
  end.

Definition start (who : actor) (w : t) : t :=
  match who with
  | Scheduler => set_scheduler (Thread.start (scheduler w)) w
  | Collector => set_collector (Thread.start (collector w)) w
  | Executor (S k) => set_executors (alter Thread.start k (executors w)) w
  | Executor O => w
  | Coordinator => w
  end.

Definition next (w : t) : t := set_pc (S (pc w)) w.

Section Methods.
Context `{Platform}.

(** [__init__]; [t0] is the wall clock when the client is created. *)
Definition init (num_tasks : nat) (bundlesize bundlewait : Z) (template : string)
    (t0 : datetime) : t * Store.t :=
  (Build num_tasks
     (Thread.new (ClientScheduler.init Inbound))
     (Thread.new (ClientCollector.init Outbound bundlesize bundlewait))
     (map (fun count => Thread.new (TaskExecutor.init (count + 1) Inbound Outbound template))
          (seq 0 num_tasks))
     0%nat None,
   Store.Build QueueClient.new
     (Queue.new DEFAULT_BUNDLESIZE) (Queue.new DEFAULT_BUNDLESIZE) t0 []).

(** Modelled from the spec: [join] of [hypershell.core.thread.Thread],
    which is not part of [client.py].  It returns once the thread has
    finished; an exception that ended the thread surfaces in the
    coordinator, which is waiting in [join]. *)
Definition join (who : actor) (w : t) (st : Store.t) : t * Store.t :=
  match status_of who w with
  | Some Finished => (next w, Store.record Coordinator (Joined who) st)
  | Some (Crashed e) => (set_error e w, st)
  | _ => (w, st)
  end.

(** [q.put(None)] without a timeout: waits while the queue is full. *)
Definition signal (r : queue_ref) (w : t) (st : Store.t) : t * Store.t :=
  match local_put Coordinator r None st with
  | Return true st' => (next w, st')
  | _ => (w, st)
  end.

(** [None.encode()] raises [AttributeError]. *)
Definition register_final_task (w : t) (st : Store.t) : t * Store.t :=
  match ClientScheduler.final_task_id (Thread.machine (scheduler w)) with
  | Some final =>
      match terminator_put (encode final) st with
      | Return _ st' => (next w, st')
      | Raise e _ => (set_error e w, st)
      end
  | None => (set_error AttributeError w, st)
  end.

(** One step of [run]: the next call, once it can complete; after the
    last one, [register_final_task]; after that, nothing. *)
Definition step (w : t) (st : Store.t) : t * Store.t :=
  match error w with
  | Some _ => (w, st)
  | None =>
      match shutdown (length (executors w)) !! pc w with
      | Some (Start who) =>
          (next (start who w), Store.record Coordinator (Started who) st)
      | Some (Join who) => join who w st
      | Some (Signal r) => signal r w st
      | None =>
          if (pc w =? length (shutdown (length (executors w))))%nat
          then register_final_task w st
          else (w, st)
      end
  end.

End Methods.

End ClientThread.

(** ** The running client *)

(** What can happen next: the wall clock moves, the server sends a bundle or
    the disconnect sentinel, or one of the threads takes a step. *)
Inductive action :=
| Tick (t : datetime)
| Send (b : option (list bytes))
| StepCoordinator
| StepScheduler
| StepCollector
| StepExecutor (k : nat) (o : os).

Definition world : Type := ClientThread.t * Store.t.

Section Client.
Context `{Platform}.

Definition step_scheduler :=
  Thread.step ClientScheduler.state ClientScheduler.set_state ClientScheduler.actions.

Definition step_collector :=
  Thread.step ClientCollector.state ClientCollector.set_state ClientCollector.actions.

Definition step_executor (o : os) :=
  Thread.step TaskExecutor.state TaskExecutor.set_state (TaskExecutor.actions o).

Definition step (a : action) (ws : world) : world :=
  let '(w, st) := ws in
  match a with
  | Tick t => (w, Store.set_clock t st)
  | Send b =>
      let c := Store.client st in
      (w, Store.set_client
            (QueueClient.Build (QueueClient.scheduled c ++ [b])
               (QueueClient.completed c) (QueueClient.terminator c)) st)
  | StepCoordinator => ClientThread.step w st
  | StepScheduler =>
      let '(th, st') := step_scheduler (ClientThread.scheduler w) st in
      (ClientThread.set_scheduler th w, st')
  | StepCollector =>
      let '(th, st') := step_collector (ClientThread.collector w) st in
      (ClientThread.set_collector th w, st')
  | StepExecutor k o =>
      match ClientThread.executors w !! k with
      | Some th =>
          let '(th', st') := step_executor o th st in
          (ClientThread.set_executors (<[k := th']> (ClientThread.executors w)) w, st')
      | None => (w, st)
      end
  end.

Definition run (schedule : list action) (ws : world) : world :=
  fold_left (fun ws a => step a ws) schedule ws.

End Client.

(** ** Reading the log *)

(** What the scheduler has read from [scheduled], oldest first. *)
Definition received (lg : list (actor * event)) : list (option (list bytes)) :=
  omap (fun ae => match ae with
                  | (Scheduler, GetScheduled b) => Some b
                  | _ => None
                  end) lg.

(** The non-null bundles among them. *)
Definition bundles (lg : list (actor * event)) : list (list bytes) :=
  omap (fun ae => match ae with
                  | (Scheduler, GetScheduled (Some b)) => Some b
                  | _ => None
                  end) lg.

(** The tasks the scheduler has put on [inbound], oldest first. *)
Definition forwarded (lg : list (actor * event)) : list Task.t :=
  omap (fun ae => match ae with
                  | (Scheduler, PutLocal Inbound (Some x)) => Some x
                  | _ => None
                  end) lg.

(** The tasks the executors have put on [outbound], oldest first. *)
Definition returned (lg : list (actor * event)) : list Task.t :=
  omap (fun ae => match ae with
                  | (Executor _, PutLocal Outbound (Some x)) => Some x
                  | _ => None
                  end) lg.

(** What the coordinator has done, oldest first. *)
Definition coordinated (lg : list (actor * event)) : list event :=
  omap (fun ae => match ae with
                  | (Coordinator, e) => Some e
                  | _ => None
                  end) lg.

(** What the client has put on [terminator], oldest first. *)
Definition published (st : Store.t) : list bytes :=
  QueueClient.terminator (Store.client st).

(** The id of the last task of the last of the bundles [bs]. *)
Definition terminal_id `{Platform} (bs : list (list bytes)) : option string :=
  match last bs with
  | Some b => option_map Task.id (last (map unpack b))
  | None => None
  end.



(** [s] occurs in [t]. *)
Fixpoint occurs (s t : string) : bool :=
  String.prefix s t ||
  match t with
  | EmptyString => false
  | String _ rest => occurs s rest
  end.

(** * Invariants, scenarios and proof tools *)

(** ** What the coordinator does, as events *)


(** ** Invariants *)

Section SchedulerInvariant.
Context `{Platform}.
Import SchedulerState.

(** The tasks the scheduler still has to put on [inbound]. *)
Definition holding (m : ClientScheduler.t) : list Task.t :=
  match ClientScheduler.state m with
  | UNPACK =>
      match ClientScheduler.bundle m with
      | Some data => map unpack data
      | None => []
      end
  | PUT_LOCAL =>
      match ClientScheduler.task m with
      | Some x => x :: ClientScheduler.tasks m
      | None => ClientScheduler.tasks m
      end
  | _ => ClientScheduler.tasks m
  end.

(** The bundle that was received and is not unpacked yet. *)
Definition pending (m : ClientScheduler.t) : list (list bytes) :=
  match ClientScheduler.state m, ClientScheduler.bundle m with
  | UNPACK, Some data => [data]
  | _, _ => []
  end.

Record scheduler_inv (th : Thread.t ClientScheduler.t) (lg : list (actor * event)) : Prop := {
  si_local : ClientScheduler.local (Thread.machine th) = Inbound;
  si_received :
    received lg = map Some (bundles lg) ++
      match ClientScheduler.state (Thread.machine th) with HALT => [None] | _ => [] end;
  si_unpacked :
    exists ds,
      bundles lg = ds ++ pending (Thread.machine th) /\
      Forall (fun b => b <> []) ds /\
      ClientScheduler.final_task_id (Thread.machine th) = terminal_id ds;
  si_forwarded :
    forwarded lg ++ holding (Thread.machine th) = concat (map (map unpack) (bundles lg));
  si_tasks :
    match ClientScheduler.state (Thread.machine th) with
    | START | GET_REMOTE | UNPACK | HALT => ClientScheduler.tasks (Thread.machine th) = []
    | PUT_LOCAL => ClientScheduler.task (Thread.machine th) <> None
    | POP_TASK => True
    end;
  si_bundle :
    ClientScheduler.state (Thread.machine th) = UNPACK ->
    ClientScheduler.bundle (Thread.machine th) <> None;
  si_status :
    match Thread.status th with
    | Created => ClientScheduler.state (Thread.machine th) = START
    | Finished => ClientScheduler.state (Thread.machine th) = HALT
    | Crashed e => e = IndexError /\ ClientScheduler.state (Thread.machine th) = UNPACK
    | Running => True
    end;
  si_start :
    ClientScheduler.state (Thread.machine th) = START -> received lg = [] }.

End SchedulerInvariant.

Section ExecutorInvariant.
Import TaskState.


End ExecutorInvariant.

Section ClientInvariant.
Context `{Platform}.

(** What the coordinator has done and what it may rely on, by the number
    of calls it has completed. *)
Record coordinator_inv (w : ClientThread.t) (st : Store.t) : Prop := {
  ci_executors : length (ClientThread.executors w) = ClientThread.num_tasks w;
  ci_log :
    coordinated (Store.log st) =
    map ClientThread.event_of
      (take (ClientThread.pc w) (ClientThread.shutdown (ClientThread.num_tasks w)))
    ++ map PutTerminator (QueueClient.terminator (Store.client st));
  ci_joined :
    forall who,
      ClientThread.Join who ∈
        take (ClientThread.pc w) (ClientThread.shutdown (ClientThread.num_tasks w)) ->
      ClientThread.status_of who w = Some Finished;
  ci_published :
    match QueueClient.terminator (Store.client st) with
    | [] =>
        (ClientThread.pc w <= length (ClientThread.shutdown (ClientThread.num_tasks w)))%nat
    | [x] =>
        (length (ClientThread.shutdown (ClientThread.num_tasks w)) < ClientThread.pc w)%nat /\
        exists final,
          ClientScheduler.final_task_id (Thread.machine (ClientThread.scheduler w)) = Some final /\
          x = encode final
    | _ => False
    end;
  ci_collector :
    Thread.status (ClientThread.collector w) = Finished ->
    ClientCollector.state (Thread.machine (ClientThread.collector w)) = CollectorState.HALT;
  ci_executor :
    forall th, th ∈ ClientThread.executors w ->
      Thread.status th = Finished ->
      TaskExecutor.state (Thread.machine th) = TaskState.HALT }.

Record client_inv (ws : world) : Prop := {
  inv_scheduler : scheduler_inv (ClientThread.scheduler (fst ws)) (Store.log (snd ws));
  inv_coordinator : coordinator_inv (fst ws) (snd ws) }.


(** Outside [PUT_REMOTE] the collector's [bundle] is empty: it is filled by
    [pack_bundle] and emptied again by the [put_remote] that follows. *)
Definition bundle_inv (m : ClientCollector.t) : Prop :=
  ClientCollector.state m <> CollectorState.PUT_REMOTE -> ClientCollector.bundle m = [].

End ClientInvariant.

(** ** The pipeline as a whole *)

(** [sep.join(parts)] *)
Fixpoint str_join (sep : string) (parts : list string) : string :=
  match parts with
  | [] => EmptyString
  | [p] => p
  | p :: rest => String.append p (String.append sep (str_join sep rest))
  end.

(** What the server knows a task by: its id and its argument string. *)
Definition job (x : Task.t) : string * string := (Task.id x, Task.args x).

(** The tasks among the items of a local queue, sentinels left out. *)
Definition tasks_of (items : list (option Task.t)) : list Task.t :=
  omap (fun x => x) items.

(** The tasks the executors have taken from [inbound], oldest first. *)
Definition taken (lg : list (actor * event)) : list Task.t :=
  omap (fun ae => match ae with
                  | (Executor _, GetLocal Inbound (Some x)) => Some x
                  | _ => None
                  end) lg.

(** The tasks the collector has taken from [outbound], oldest first. *)
Definition collected (lg : list (actor * event)) : list Task.t :=
  omap (fun ae => match ae with
                  | (Collector, GetLocal Outbound (Some x)) => Some x
                  | _ => None
                  end) lg.

(** The child processes the executors have created, oldest first: the
    command line and the [TASK_ID] and [TASK_ARGS] of the environment. *)
Definition spawned (lg : list (actor * event)) : list (string * string * string) :=
  omap (fun ae => match ae with
                  | (Executor _, Popen c i a) => Some (c, i, a)
                  | _ => None
                  end) lg.

(** The exit statuses the executors have collected, oldest first. *)
Definition exited (lg : list (actor * event)) : list Z :=
  omap (fun ae => match ae with
                  | (Executor _, Exited s) => Some s
                  | _ => None
                  end) lg.

(** How many of the calls are [queue.put(None)] on queue [r]. *)
Definition signals (r : queue_ref) (calls : list ClientThread.call) : nat :=
  length (omap (fun c => match c, r with
                         | ClientThread.Signal Inbound, Inbound => Some tt
                         | ClientThread.Signal Outbound, Outbound => Some tt
                         | _, _ => None
                         end) calls).

(** A local queue in which the sentinels come after the tasks. *)
Definition queued (ts : list Task.t) (k : nat) : list (option Task.t) :=
  map Some ts ++ repeat None k.

Section PipelineInvariant.
Context `{Platform}.

(** The task an executor has taken and not yet put on [outbound]. *)
Definition inflight (m : TaskExecutor.t) : list Task.t :=
  match TaskExecutor.state m with
  | TaskState.START_TASK | TaskState.WAIT_TASK | TaskState.PUT_LOCAL =>
      option_list (TaskExecutor.task m)
  | _ => []
  end.

Definition flying (exs : list (Thread.t TaskExecutor.t)) : list Task.t :=
  concat (map (fun th => inflight (Thread.machine th)) exs).

(** The task an executor has created a child process for and not yet put
    on [outbound]. *)
Definition started (m : TaskExecutor.t) : list Task.t :=
  match TaskExecutor.state m with
  | TaskState.WAIT_TASK | TaskState.PUT_LOCAL => option_list (TaskExecutor.task m)
  | _ => []
  end.

Definition underway (exs : list (Thread.t TaskExecutor.t)) : list Task.t :=
  concat (map (fun th => started (Thread.machine th)) exs).

(** The [TASK_ID] and [TASK_ARGS] a child process was created with. *)
Definition job_of (child : string * string * string) : string * string :=
  let '(_, task_id, task_args) := child in (task_id, task_args).

(** Whether an executor has a child process it has not waited for. *)
Definition has_child (m : TaskExecutor.t) : nat :=
  match TaskExecutor.state m with
  | TaskState.WAIT_TASK => 1%nat
  | _ => 0%nat
  end.

Definition children (exs : list (Thread.t TaskExecutor.t)) : nat :=
  sum_list_with (fun th => has_child (Thread.machine th)) exs.

(** Whether an executor has taken its sentinel. *)
Definition has_stopped (m : TaskExecutor.t) : nat :=
  match TaskExecutor.state m with
  | TaskState.FINALIZE | TaskState.HALT => 1%nat
  | _ => 0%nat
  end.

Definition stopped (exs : list (Thread.t TaskExecutor.t)) : nat :=
  sum_list_with (fun th => has_stopped (Thread.machine th)) exs.

(** Whether the collector has taken its sentinel. *)
Definition collector_stopped (m : ClientCollector.t) : nat :=
  match ClientCollector.state m with
  | CollectorState.FINALIZE | CollectorState.HALT => 1%nat
  | _ => 0%nat
  end.

(** What [start_task] leaves on a task. *)
Definition rendered (template : string) (x : Task.t) : Prop :=
  Task.command x = Some (replace marker (Task.args x) template) /\
  Task.client_host x = Some HOSTNAME /\
  Task.start_time x <> None.

(** What an executor was created with, and what it holds by state. *)
Record executor_holds (template : string) (m : TaskExecutor.t) : Prop := {
  eh_inbound : TaskExecutor.inbound m = Inbound;
  eh_outbound : TaskExecutor.outbound m = Outbound;
  eh_template : TaskExecutor.template m = template;
  eh_task :
    match TaskExecutor.state m with
    | TaskState.START_TASK => TaskExecutor.task m <> None
    | TaskState.WAIT_TASK =>
        exists x, TaskExecutor.task m = Some x /\ rendered template x /\
                  TaskExecutor.process m <> None
    | TaskState.PUT_LOCAL =>
        exists x, TaskExecutor.task m = Some x /\ rendered template x /\
                  Task.exit_status x <> None /\ Task.completion_time x <> None
    | _ => True
    end }.

(** Where the tasks are: nothing is lost or made up between the scheduler
    and the collector. *)
Record flow_inv (template : string) (ws : world) : Prop := {
  fl_executors :
    Forall (fun th => executor_holds template (Thread.machine th))
      (ClientThread.executors (fst ws));
  fl_collector :
    ClientCollector.local (Thread.machine (ClientThread.collector (fst ws))) = Outbound;
  fl_inbound :
    taken (Store.log (snd ws)) ++ tasks_of (Queue.items (Store.inbound (snd ws))) =
    forwarded (Store.log (snd ws));
  fl_outbound :
    collected (Store.log (snd ws)) ++ tasks_of (Queue.items (Store.outbound (snd ws))) =
    returned (Store.log (snd ws));
  fl_jobs :
    map job (taken (Store.log (snd ws))) ≡ₚ
    map job (returned (Store.log (snd ws))) ++
    map job (flying (ClientThread.executors (fst ws)));
  fl_returned :
    Forall (fun x => rendered template x /\
                     Task.exit_status x <> None /\ Task.completion_time x <> None)
      (returned (Store.log (snd ws)));
  fl_spawned :
    Forall (fun '(c, i, a) => c = replace marker a template /\
                              (i, a) ∈ map job (taken (Store.log (snd ws))))
      (spawned (Store.log (snd ws)));
  fl_runs :
    map job_of (spawned (Store.log (snd ws))) ≡ₚ
    map job (returned (Store.log (snd ws))) ++
    map job (underway (ClientThread.executors (fst ws)));
  fl_children :
    length (spawned (Store.log (snd ws))) =
    (length (exited (Store.log (snd ws))) + children (ClientThread.executors (fst ws)))%nat }.

(** The most tasks the collector holds at a time. *)
Definition capacity (bundlesize : Z) : Z := Z.max bundlesize 1.

(** What the collector holds and what it has sent. *)
Record collector_holds (bundlesize : Z) (m : ClientCollector.t) (st : Store.t) : Prop := {
  co_local : ClientCollector.local m = Outbound;
  co_bundlesize : ClientCollector.bundlesize m = bundlesize;
  co_bundle :
    ClientCollector.bundle m =
    match ClientCollector.state m with
    | CollectorState.PUT_REMOTE => map pack (ClientCollector.tasks m)
    | _ => []
    end;
  co_pending :
    match ClientCollector.state m with
    | CollectorState.START => ClientCollector.tasks m = []
    | CollectorState.CHECK_BUNDLE | CollectorState.PACK_BUNDLE | CollectorState.PUT_REMOTE =>
        Z.of_nat (length (ClientCollector.tasks m)) <= capacity bundlesize
    | CollectorState.GET_LOCAL | CollectorState.FINALIZE | CollectorState.HALT =>
        Z.of_nat (length (ClientCollector.tasks m)) < capacity bundlesize
    end;
  co_completed :
    concat (QueueClient.completed (Store.client st)) ++ map pack (ClientCollector.tasks m) =
    map pack (collected (Store.log st));
  co_sizes :
    Forall (fun b => 1 <= Z.of_nat (length b) <= capacity bundlesize)
      (QueueClient.completed (Store.client st)) }.

Definition collector_inv (bundlesize : Z) (ws : world) : Prop :=
  collector_holds bundlesize (Thread.machine (ClientThread.collector (fst ws))) (snd ws).

(** The three invariants together. *)
Definition pipeline_inv (template : string) (bundlesize : Z) (ws : world) : Prop :=
  client_inv ws /\ flow_inv template ws /\ collector_inv bundlesize ws.

(** The sentinels: where they are, and what they come after. *)
Record sentinel_inv (ws : world) : Prop := {
  se_inbound :
    exists ts k,
      Queue.items (Store.inbound (snd ws)) = queued ts k /\
      (k + stopped (ClientThread.executors (fst ws)))%nat =
      signals Inbound
        (take (ClientThread.pc (fst ws))
           (ClientThread.shutdown (ClientThread.num_tasks (fst ws))));
  se_dispatched :
    (0 < stopped (ClientThread.executors (fst ws)))%nat ->
    tasks_of (Queue.items (Store.inbound (snd ws))) = [];
  se_outbound :
    exists ts k,
      Queue.items (Store.outbound (snd ws)) = queued ts k /\
      (k + collector_stopped (Thread.machine (ClientThread.collector (fst ws))))%nat =
      signals Outbound
        (take (ClientThread.pc (fst ws))
           (ClientThread.shutdown (ClientThread.num_tasks (fst ws))));
  se_collected :
    (0 < collector_stopped (Thread.machine (ClientThread.collector (fst ws))))%nat ->
    tasks_of (Queue.items (Store.outbound (snd ws))) = [] }.

End PipelineInvariant.

(** ** What a step does

    Each thread's step seen from outside: what it takes from or puts on the
    shared store, and how what the thread holds changes. *)

Section Effects.
Context `{Platform}.
Import TaskState.

(** What one step of an executor does to the world, and to what it holds. *)
Inductive executor_effect (template : string) (m m' : TaskExecutor.t) (st : Store.t) :
    Store.t -> Prop :=
| ee_silent :
    map job (inflight m') = map job (inflight m) ->
    map job (started m') = map job (started m) ->
    has_child m' = has_child m ->
    has_stopped m' = has_stopped m ->
    executor_effect template m m' st st
| ee_take i x rest :
    Queue.items (Store.inbound st) = Some x :: rest ->
    inflight m = [] -> inflight m' = [x] ->
    started m = [] -> started m' = [] ->
    has_child m = 0%nat -> has_child m' = 0%nat ->
    has_stopped m = 0%nat -> has_stopped m' = 0%nat ->
    executor_effect template m m' st
      (Store.record (Executor i) (GetLocal Inbound (Some x))
         (Store.set_local Inbound (Queue.Build rest (Queue.maxsize (Store.inbound st))) st))
| ee_stop i rest :
    Queue.items (Store.inbound st) = None :: rest ->
    inflight m = [] -> inflight m' = [] ->
    started m = [] -> started m' = [] ->
    has_child m = 0%nat -> has_child m' = 0%nat ->
    has_stopped m = 0%nat -> has_stopped m' = 1%nat ->
    executor_effect template m m' st
      (Store.record (Executor i) (GetLocal Inbound None)
         (Store.set_local Inbound (Queue.Build rest (Queue.maxsize (Store.inbound st))) st))
| ee_spawn i x x' :
    inflight m = [x] -> inflight m' = [x'] -> job x' = job x ->
    started m = [] -> started m' = [x'] ->
    has_child m = 0%nat -> has_child m' = 1%nat ->
    has_stopped m = 0%nat -> has_stopped m' = 0%nat ->
    executor_effect template m m' st
      (Store.record (Executor i)
         (Popen (replace marker (Task.args x) template) (Task.id x) (Task.args x)) st)
| ee_exit i s x x' :
    inflight m = [x] -> inflight m' = [x'] -> job x' = job x ->
    started m = [x] -> started m' = [x'] ->
    has_child m = 1%nat -> has_child m' = 0%nat ->
    has_stopped m = 0%nat -> has_stopped m' = 0%nat ->
    executor_effect template m m' st (Store.record (Executor i) (Exited s) st)
| ee_put i x :
    Queue.full (Store.outbound st) = false ->
    inflight m = [x] -> inflight m' = [] ->
    started m = [x] -> started m' = [] ->
    rendered template x -> Task.exit_status x <> None -> Task.completion_time x <> None ->
    has_child m = 0%nat -> has_child m' = 0%nat ->
    has_stopped m = 0%nat -> has_stopped m' = 0%nat ->
    executor_effect template m m' st
      (Store.record (Executor i) (PutLocal Outbound (Some x))
         (Store.set_local Outbound
            (Queue.Build (Queue.items (Store.outbound st) ++ [Some x])
               (Queue.maxsize (Store.outbound st))) st)).

(** What one step of the scheduler does to the store. *)
Inductive scheduler_effect (st : Store.t) : Store.t -> Prop :=
| sc_silent : scheduler_effect st st
| sc_get b rest :
    QueueClient.scheduled (Store.client st) = b :: rest ->
    scheduler_effect st
      (Store.record Scheduler (GetScheduled b)
         (Store.set_client
            (QueueClient.Build rest (QueueClient.completed (Store.client st))
               (QueueClient.terminator (Store.client st))) st))
| sc_put x :
    Queue.full (Store.inbound st) = false ->
    scheduler_effect st
      (Store.record Scheduler (PutLocal Inbound (Some x))
         (Store.set_local Inbound
            (Queue.Build (Queue.items (Store.inbound st) ++ [Some x])
               (Queue.maxsize (Store.inbound st))) st)).

(** What one step of the collector does to the store. *)
Inductive collector_effect (m m' : ClientCollector.t) (st : Store.t) : Store.t -> Prop :=
| cl_silent :
    collector_stopped m' = collector_stopped m ->
    collector_effect m m' st st
| cl_take x rest :
    Queue.items (Store.outbound st) = Some x :: rest ->
    collector_stopped m = 0%nat -> collector_stopped m' = 0%nat ->
    collector_effect m m' st
      (Store.record Collector (GetLocal Outbound (Some x))
         (Store.set_local Outbound (Queue.Build rest (Queue.maxsize (Store.outbound st))) st))
| cl_stop rest :
    Queue.items (Store.outbound st) = None :: rest ->
    collector_stopped m = 0%nat -> collector_stopped m' = 1%nat ->
    collector_effect m m' st
      (Store.record Collector (GetLocal Outbound None)
         (Store.set_local Outbound (Queue.Build rest (Queue.maxsize (Store.outbound st))) st))
| cl_send b :
    collector_stopped m' = collector_stopped m ->
    collector_effect m m' st
      (Store.record Collector (PutCompleted b)
         (Store.set_client
            (QueueClient.Build (QueueClient.scheduled (Store.client st))
               (QueueClient.completed (Store.client st) ++ [b])
               (QueueClient.terminator (Store.client st))) st)).

(** What one step of the coordinator does to the store. *)
Inductive coordinator_effect (w w' : ClientThread.t) (st : Store.t) : Store.t -> Prop :=
| cd_silent :
    ClientThread.pc w' = ClientThread.pc w ->
    coordinator_effect w w' st st
| cd_call c :
    ClientThread.shutdown (length (ClientThread.executors w)) !! ClientThread.pc w = Some c ->
    (forall r, c <> ClientThread.Signal r) ->
    ClientThread.pc w' = S (ClientThread.pc w) ->
    coordinator_effect w w' st (Store.record Coordinator (ClientThread.event_of c) st)
| cd_signal r :
    ClientThread.shutdown (length (ClientThread.executors w)) !! ClientThread.pc w =
      Some (ClientThread.Signal r) ->
    ClientThread.pc w' = S (ClientThread.pc w) ->
    Queue.full (Store.local r st) = false ->
    coordinator_effect w w' st
      (Store.record Coordinator (PutLocal r None)
         (Store.set_local r
            (Queue.Build (Queue.items (Store.local r st) ++ [None])
               (Queue.maxsize (Store.local r st))) st))
| cd_publish x :
    ClientThread.shutdown (length (ClientThread.executors w)) !! ClientThread.pc w = None ->
    ClientThread.pc w' = S (ClientThread.pc w) ->
    coordinator_effect w w' st
      (Store.record Coordinator (PutTerminator x)
         (Store.set_client
            (QueueClient.Build (QueueClient.scheduled (Store.client st))
               (QueueClient.completed (Store.client st))
               (QueueClient.terminator (Store.client st) ++ [x])) st)).

End Effects.

(** ** More invariants *)

Section MoreInvariants.
Context `{Platform}.

(** What can have ended a thread, and what the coordinator has seen of it. *)
Record failure_inv (ws : world) : Prop := {
  fa_scheduler :
    forall e, Thread.status (ClientThread.scheduler (fst ws)) = Crashed e ->
      ClientScheduler.bundle (Thread.machine (ClientThread.scheduler (fst ws))) = Some [];
  fa_executors :
    Forall (fun th => forall e, Thread.status th = Crashed e ->
                                e = SpawnError /\
                                TaskExecutor.state (Thread.machine th) = TaskState.START_TASK)
      (ClientThread.executors (fst ws));
  fa_collector :
    (forall e, Thread.status (ClientThread.collector (fst ws)) <> Crashed e) /\
    (ClientCollector.state (Thread.machine (ClientThread.collector (fst ws))) <>
       CollectorState.START ->
     ClientCollector.previous_send (Thread.machine (ClientThread.collector (fst ws))) <> None);
  fa_error :
    forall e, ClientThread.error (fst ws) = Some e ->
      e = IndexError /\ Thread.status (ClientThread.scheduler (fst ws)) = Crashed IndexError \/
      e = SpawnError /\
        (exists k th, ClientThread.executors (fst ws) !! k = Some th /\
                      Thread.status th = Crashed SpawnError) \/
      e = AttributeError /\
        ClientThread.pc (fst ws) =
          length (ClientThread.shutdown (ClientThread.num_tasks (fst ws))) /\
        ClientScheduler.final_task_id (Thread.machine (ClientThread.scheduler (fst ws))) = None }.

(** A local queue within its capacity. *)
Definition within (q : Queue.t (option Task.t)) : Prop :=
  Queue.maxsize q = DEFAULT_BUNDLESIZE /\
  (0 < DEFAULT_BUNDLESIZE -> Z.of_nat (length (Queue.items q)) <= DEFAULT_BUNDLESIZE).

Definition queue_inv (ws : world) : Prop :=
  within (Store.inbound (snd ws)) /\ within (Store.outbound (snd ws)).



(** With at most one executor the tasks come out in the order in which
    they went in. *)
Definition order_inv (ws : world) : Prop :=
  map job (taken (Store.log (snd ws))) =
  map job (returned (Store.log (snd ws))) ++
  map job (flying (ClientThread.executors (fst ws))).

End MoreInvariants.

(** ** A platform to run the client on

    A packed task is the line [id args]: the id, a space, the raw argument
    string. *)

Module Demo.

Fixpoint before_space (s : string) : string :=
  match s with
  | EmptyString => EmptyString
  | String c rest => if Ascii.eqb c " " then EmptyString else String c (before_space rest)
  end.

Fixpoint after_space (s : string) : string :=
  match s with
  | EmptyString => EmptyString
  | String c rest => if Ascii.eqb c " " then rest else after_space rest
  end.

Definition line (x : Task.t) : string :=
  String.append (Task.id x) (String " " (Task.args x)).

#[export] Instance platform : Platform := {|
  unpack := fun b =>
    let s := String.string_of_list_byte b in
    Task.fresh (before_space s) (after_space s);
  pack := fun x => encode (line x);
  HOSTNAME := "node-1"%string;
  DEFAULT_BUNDLESIZE := 1;
  DEFAULT_BUNDLEWAIT := 5 |}.

(** The child of executor [k] has exited with [status]. *)
Definition exits (k : nat) (status : Z) : action := StepExecutor k (OS false (Some status)).

(** Executor [k] takes a step in which no child exits and none fails to start. *)
Definition runs (k : nat) : action := StepExecutor k (OS false None).

(** Executor [k] takes a step in which [Popen] raises. *)
Definition fails (k : nat) : action := StepExecutor k (OS true None).

Definition t1 : Task.t := Task.fresh "t1" "exit 7".

(** The server sends the bundle [[t1]] and disconnects; the one executor
    runs [t1], whose child exits with status 7; the clock advances along
    the way; every thread runs to its end. *)
Definition one_task : list action :=
  [Send (Some [encode (line t1)]); Send None] ++
  repeat StepCoordinator 3 ++
  [Tick 10] ++
  repeat StepScheduler 6 ++
  [StepCollector; runs 0; runs 0; Tick 20; runs 0; runs 0; Tick 30; exits 0 7; runs 0] ++
  repeat StepCollector 2 ++
  repeat StepScheduler 2 ++
  [StepCoordinator; StepCoordinator; runs 0; runs 0; runs 0] ++
  repeat StepCoordinator 2 ++
  repeat StepCollector 3 ++
  repeat StepCoordinator 2.

(** The server disconnects without having sent a bundle. *)
Definition no_task : list action :=
  [Send None] ++
  repeat StepCoordinator 3 ++
  repeat StepScheduler 3 ++
  [StepCollector; runs 0] ++
  [StepCoordinator; StepCoordinator; runs 0; runs 0; runs 0;
   StepCoordinator; StepCoordinator] ++
  repeat StepCollector 3 ++
  repeat StepCoordinator 3.


Definition t2 : Task.t := Task.fresh "t2" "true".

(** The server sends the bundle [[t1; t2]]; no executor takes anything
    from [inbound], whose capacity is 1; the scheduler puts [t1] and then
    keeps trying to put [t2]. *)
Definition backpressure : list action :=
  [Send (Some [encode (line t1); encode (line t2)])] ++
  repeat StepCoordinator 3 ++
  repeat StepScheduler 9.


(** An executor that has just taken [t1] from [inbound]. *)
Definition starting : TaskExecutor.t :=
  TaskExecutor.Build 1 "sh -c '{}'" Inbound Outbound (Some t1) None TaskState.START_TASK.


(** The client of the command line [-N 1 -b 3 -w 3600 -t "sh -c '{}'"],
    created at time 0. *)
Definition client : world := ClientThread.init 1 3 3600 "sh -c '{}'" 0.

(** The server sends an empty bundle; the scheduler reads it. *)
Definition empty_bundle : list action :=
  [Send (Some [])] ++ repeat StepCoordinator 3 ++ repeat StepScheduler 2.

(** An executor with a template that holds the marker twice, which has
    just taken [t1] from [inbound]. *)
Definition echoing : TaskExecutor.t :=
  TaskExecutor.Build 1 "echo {} >> {}.log" Inbound Outbound (Some t1) None TaskState.START_TASK.


(** [t1] as the executor returns it. *)
Definition finished_t1 : Task.t :=
  Task.Build "t1" "exit 7" (Some "sh -c 'exit 7'"%string) (Some 20) (Some 30) (Some 7)
    (Some "node-1"%string).

(** A collector that started at time 0 and holds the finished [t1]. *)
Definition holding_t1 : ClientCollector.t :=
  ClientCollector.Build Outbound [finished_t1] [] 3 3600 (Some 0) CollectorState.GET_LOCAL.

(** The store of the client an hour after its creation, nothing having
    happened. *)
Definition an_hour_later : Store.t := Store.set_clock 3600000000 (snd client).

End Demo.

(** ** Proof tools *)

Arguments received : simpl never.
Arguments bundles : simpl never.
Arguments forwarded : simpl never.
Arguments returned : simpl never.
Arguments coordinated : simpl never.

Create Rewrite HintDb log.
Arguments ClientThread.shutdown : simpl never.

Ltac simpl_log := cbn; autorewrite with log; cbn.

(** Running a method on explicit data. *)

Ltac run_in H :=
  cbv beta iota zeta delta
    [bind ret raise attr assign shared defined now emit
     local_put local_get scheduled_get completed_put terminator_put
     Queue.put Queue.get Queue.items Queue.maxsize Queue.new
     Store.client Store.inbound Store.outbound Store.clock Store.log
     Store.local Store.set_local Store.set_client Store.set_clock Store.record
     QueueClient.scheduled QueueClient.completed QueueClient.terminator QueueClient.new
     Thread.step Thread.status Thread.machine Thread.start Thread.new
     step_scheduler step_collector step_executor
     ClientScheduler.local ClientScheduler.bundle ClientScheduler.task
     ClientScheduler.tasks ClientScheduler.final_task_id ClientScheduler.state
     ClientScheduler.set_bundle ClientScheduler.set_task ClientScheduler.set_tasks
     ClientScheduler.set_final_task_id ClientScheduler.set_state
     ClientScheduler.start ClientScheduler.get_remote ClientScheduler.unpack_bundle
     ClientScheduler.pop_task ClientScheduler.put_local ClientScheduler.actions
     ClientCollector.local ClientCollector.tasks ClientCollector.bundle
     ClientCollector.bundlesize ClientCollector.bundlewait
     ClientCollector.previous_send ClientCollector.state
     ClientCollector.set_tasks ClientCollector.set_bundle
     ClientCollector.set_previous_send ClientCollector.set_state
     ClientCollector.start ClientCollector.get_local ClientCollector.check_bundle
     ClientCollector.pack_bundle ClientCollector.put_remote ClientCollector.finalize
     ClientCollector.actions
     TaskExecutor.id TaskExecutor.template TaskExecutor.inbound TaskExecutor.outbound
     TaskExecutor.task TaskExecutor.process TaskExecutor.state
     TaskExecutor.set_task TaskExecutor.set_process TaskExecutor.set_state
     TaskExecutor.assign_task
     TaskExecutor.start TaskExecutor.get_local TaskExecutor.start_task
     TaskExecutor.wait_task TaskExecutor.put_local TaskExecutor.finalize
     TaskExecutor.actions
     Task.id Task.args Task.command Task.start_time Task.completion_time
     Task.exit_status Task.client_host
     Task.set_command Task.set_start_time Task.set_completion_time
     Task.set_exit_status Task.set_client_host
     popen_fails wait_returns] in H.

(** Case analysis on whatever a stuck computation is waiting for. *)
Ltac destruct_scrutinee x :=
  match x with
  | context [match ?y with _ => _ end] => destruct_scrutinee y
  | _ => first [ is_var x; destruct x | destruct x eqn:? ]
  end.

Ltac break_in H :=
  repeat (match type of H with
          | context [match ?x with _ => _ end] => destruct_scrutinee x
          end; cbv beta iota in H).

Ltac sched_auto ds :=
  rewrite ?app_nil_r in *;
  constructor; simpl_log; eauto; try discriminate; try done;
  try (exists ds; rewrite ?app_nil_r; subst; done).

(** * Proofs *)

(** ** The log grows at its end *)

Lemma received_snoc lg a e :
  received (lg ++ [(a, e)]) =
  received lg ++ match a, e with Scheduler, GetScheduled b => [b] | _, _ => [] end.
Proof.
  unfold received. rewrite omap_app. f_equal.
  destruct a; try done. destruct e; done.
Qed.

Lemma bundles_snoc lg a e :
  bundles (lg ++ [(a, e)]) =
  bundles lg ++ match a, e with Scheduler, GetScheduled (Some b) => [b] | _, _ => [] end.
Proof.
  unfold bundles. rewrite omap_app. f_equal.
  destruct a; try done. destruct e as [[b|]| | | | | | | |]; done.
Qed.

Lemma forwarded_snoc lg a e :
  forwarded (lg ++ [(a, e)]) =
  forwarded lg ++ match a, e with Scheduler, PutLocal Inbound (Some x) => [x] | _, _ => [] end.
Proof.
  unfold forwarded. rewrite omap_app. f_equal.
  destruct a; try done. destruct e as [| [|] [x|] | | | | | | |]; done.
Qed.

Lemma returned_snoc lg a e :
  returned (lg ++ [(a, e)]) =
  returned lg ++ match a, e with Executor _, PutLocal Outbound (Some x) => [x] | _, _ => [] end.
Proof.
  unfold returned. rewrite omap_app. f_equal.
  destruct a; try done. destruct e as [| [|] [x|] | | | | | | |]; done.
Qed.

Lemma coordinated_snoc lg a e :
  coordinated (lg ++ [(a, e)]) =
  coordinated lg ++ match a with Coordinator => [e] | _ => [] end.
Proof.
  unfold coordinated. rewrite omap_app. f_equal. destruct a; done.
Qed.

#[local] Hint Rewrite received_snoc bundles_snoc forwarded_snoc returned_snoc
  coordinated_snoc : log.
#[local] Hint Rewrite @app_nil_r : log.

(** ** Invariants of the scheduler *)

Section SchedulerFacts.
Context `{Platform}.
Import SchedulerState.

Lemma terminal_id_snoc ds data :
  terminal_id (ds ++ [data]) = option_map Task.id (last (map unpack data)).
Proof. unfold terminal_id. by rewrite last_snoc. Qed.

Lemma scheduler_step_inv th st th' st' :
  step_scheduler th st = (th', st') ->
  scheduler_inv th (Store.log st) ->
  scheduler_inv th' (Store.log st').
Proof.
  intros Hstep [Hloc Hrec (ds & Hdone & Hne & Hfid) Hfwd Htasks Hbundle Hstatus Hstart].
  destruct th as [status m].
  destruct m as [loc bundle task tasks fid state].
  destruct st as [[sch comp term] [ini inmax] [outi outmax] clk lg].
  cbn in *. subst loc.
  destruct status; run_in Hstep;
    try (injection Hstep as <- <-; constructor; eauto; fail).
  destruct state; run_in Hstep; cbn in * |-.
  - (* START *)
    injection Hstep as <- <-. sched_auto ds.
  - (* GET_REMOTE *)
    destruct sch as [|[data|] rest]; injection Hstep as <- <-;
      sched_auto ds.
    + by rewrite Hrec, map_app.
    + rewrite map_app, concat_app. cbn. rewrite <- Hfwd, Htasks. by simpl_log.
    + by rewrite Hrec.
  - (* UNPACK *)
    destruct bundle as [data|]; [|by destruct Hbundle].
    destruct (last (map unpack data)) as [final|] eqn:Hlast;
      injection Hstep as <- <-; sched_auto ds.
    + exists (ds ++ [data]). rewrite app_nil_r. split; [done|]. split.
      * apply Forall_app. split; [done|]. constructor; [|done].
        intros ->. discriminate.
      * by rewrite terminal_id_snoc, Hlast.
    + by apply last_None in Hlast.
  - (* POP_TASK *)
    destruct tasks as [|x rest]; injection Hstep as <- <-;
      sched_auto ds.
  - (* PUT_LOCAL *)
    destruct task as [x|]; [|done].
    destruct (Queue.full _); injection Hstep as <- <-;
      sched_auto ds.
    by rewrite <- app_assoc.
  - (* HALT *)
    injection Hstep as <- <-. sched_auto ds.
Qed.
End SchedulerFacts.

Section CollectorFacts.
Context `{Platform}.
Import CollectorState.

(** A step of the collector is invisible to the other threads' histories. *)
Lemma collector_step_log th st th' st' :
  step_collector th st = (th', st') ->
  received (Store.log st') = received (Store.log st) /\
  bundles (Store.log st') = bundles (Store.log st) /\
  forwarded (Store.log st') = forwarded (Store.log st) /\
  returned (Store.log st') = returned (Store.log st) /\
  coordinated (Store.log st') = coordinated (Store.log st) /\
  Store.clock st' = Store.clock st /\
  QueueClient.terminator (Store.client st') = QueueClient.terminator (Store.client st).
Proof.
  intros Hstep.
  destruct th as [status [loc tasks bundle size wait prev state]].
  destruct st as [[sch comp term] [ini inmax] [outi outmax] clk lg].
  destruct status; run_in Hstep; try (injection Hstep as <- <-; done).
  destruct state; run_in Hstep; break_in Hstep; injection Hstep as <- <-;
    simpl_log; try done.
  all: destruct loc; simpl_log; done.
Qed.

End CollectorFacts.

Section ExecutorFacts.
Context `{Platform}.
Import TaskState.


(** A step of an executor is invisible to the scheduler's and the
    coordinator's histories. *)
Lemma executor_step_log o th st th' st' :
  step_executor o th st = (th', st') ->
  received (Store.log st') = received (Store.log st) /\
  bundles (Store.log st') = bundles (Store.log st) /\
  forwarded (Store.log st') = forwarded (Store.log st) /\
  coordinated (Store.log st') = coordinated (Store.log st) /\
  Store.clock st' = Store.clock st /\
  QueueClient.terminator (Store.client st') = QueueClient.terminator (Store.client st).
Proof.
  intros Hstep.
  destruct th as [status [id tpl inb outb task process state]].
  destruct st as [[sch comp term] [ini inmax] [outi outmax] clk lg].
  destruct status; run_in Hstep; try (injection Hstep as <- <-; done).
  destruct state; run_in Hstep; break_in Hstep; injection Hstep as <- <-;
    simpl_log; try done.
  all: try (destruct inb; simpl_log; done).
  all: try (destruct outb; simpl_log; done).
Qed.


End ExecutorFacts.

(** ** Threads in general *)

Section ThreadFacts.
Context {Machine State : Type}.
Context (state : Machine -> State) (set_state : State -> Machine -> Machine).
Context (actions : State -> option (method Machine State)).

Lemma thread_step_finished th st :
  Thread.status th = Finished ->
  Thread.step state set_state actions th st = (th, st).
Proof. intros Hfin. unfold Thread.step. by rewrite Hfin. Qed.

Lemma thread_step_halts th st th' st' :
  Thread.step state set_state actions th st = (th', st') ->
  Thread.status th' = Finished ->
  Thread.machine th' = Thread.machine th /\
  (Thread.status th = Finished \/ actions (state (Thread.machine th)) = None).
Proof.
  unfold Thread.step. intros Hstep Hfin.
  destruct th as [status m]; cbn in *.
  destruct status; try (injection Hstep as <- <-; cbn in *; by eauto).
  destruct (actions (state m)) as [action|] eqn:Hact.
  - destruct (action (m, st)) as [next [m' st'']|e [m' st'']];
      injection Hstep as <- <-; discriminate.
  - injection Hstep as <- <-. eauto.
Qed.

Lemma thread_start_finished (th : Thread.t Machine) :
  Thread.status (Thread.start th) = Finished <-> Thread.status th = Finished.
Proof. destruct th as [[] m]; cbn; split; congruence. Qed.

Lemma thread_start_machine (th : Thread.t Machine) :
  Thread.machine (Thread.start th) = Thread.machine th.
Proof. by destruct th as [[] m]. Qed.

End ThreadFacts.

Section ClientFacts.
Context `{Platform}.

Lemma scheduler_step_log th st th' st' :
  step_scheduler th st = (th', st') ->
  returned (Store.log st') = returned (Store.log st) /\
  coordinated (Store.log st') = coordinated (Store.log st) /\
  Store.clock st' = Store.clock st /\
  QueueClient.terminator (Store.client st') = QueueClient.terminator (Store.client st).
Proof.
  intros Hstep.
  destruct th as [status [loc bundle task tasks fid state]].
  destruct st as [[sch comp term] [ini inmax] [outi outmax] clk lg].
  destruct status; run_in Hstep; try (injection Hstep as <- <-; done).
  destruct state; run_in Hstep; break_in Hstep; injection Hstep as <- <-;
    simpl_log; try done.
  all: destruct loc; simpl_log; done.
Qed.

Lemma scheduler_inv_log th lg lg' :
  received lg' = received lg ->
  bundles lg' = bundles lg ->
  forwarded lg' = forwarded lg ->
  scheduler_inv th lg -> scheduler_inv th lg'.
Proof.
  intros Hr Hb Hf [? ? ? ? ? ? ? ?]. constructor; rewrite ?Hr, ?Hb, ?Hf; done.
Qed.

Lemma scheduler_inv_start th lg :
  scheduler_inv th lg -> scheduler_inv (Thread.start th) lg.
Proof.
  intros [? ? ? ? ? ? ? ?]. destruct th as [[] m]; constructor; cbn in *; done.
Qed.

Lemma status_of_start who who' w :
  ClientThread.status_of who w = Some Finished ->
  ClientThread.status_of who (ClientThread.start who' w) = Some Finished.
Proof.
  destruct w as [n sch col exs pc err].
  destruct who' as [| | |[|k']]; destruct who as [| | |[|k]]; cbn; try done.
  - destruct sch as [[] ?]; cbn; congruence.
  - destruct col as [[] ?]; cbn; congruence.
  - rewrite list_lookup_alter. intros Hk.
    destruct (decide (k' = k)) as [->|Hne].
    + destruct (exs !! k) as [[[] ?]|]; cbn in *; congruence.
    + done.
Qed.

Lemma coordinator_inv_start who w st :
  coordinator_inv w st ->
  (ClientThread.pc w < length (ClientThread.shutdown (ClientThread.num_tasks w)))%nat ->
  coordinator_inv (ClientThread.start who w) st.
Proof.
  intros [Hlen Hlog Hjoined Hpub Hcol Hexe] Hpc.
  constructor.
  - destruct w, who as [| | |[|k]]; cbn in *; try done. by rewrite length_alter.
  - by destruct w, who as [| | |[|k]].
  - intros who' Hin. apply status_of_start, Hjoined.
    by destruct w, who as [| | |[|k]].
  - destruct w as [n sch col exs pc err], who as [| | |[|k]]; cbn in *; try done.
    destruct (QueueClient.terminator (Store.client st)) as [|x [|]]; try done.
    lia.
  - destruct w as [n sch col exs pc err], who as [| | |[|k]]; cbn in *; try done.
    rewrite thread_start_finished, thread_start_machine. done.
  - destruct w as [n sch col exs pc err], who as [| | |[|k]]; cbn in *; try done.
    intros th Hin. apply list_elem_of_lookup in Hin as [i Hi].
    rewrite list_lookup_alter in Hi.
    destruct (decide (k = i)) as [->|Hne].
    + destruct (exs !! i) as [th0|] eqn:Hth0; [|done]. injection Hi as <-.
      rewrite thread_start_finished, thread_start_machine.
      apply Hexe. by eapply list_elem_of_lookup_2.
    + apply Hexe. by eapply list_elem_of_lookup_2.
Qed.

Lemma scheduler_of_start who w :
  ClientThread.scheduler (ClientThread.start who w) = ClientThread.scheduler w \/
  ClientThread.scheduler (ClientThread.start who w) = Thread.start (ClientThread.scheduler w).
Proof. destruct w, who as [| | |[|k]]; cbn; eauto. Qed.

Lemma coordinator_inv_next c e w st :
  ClientThread.shutdown (ClientThread.num_tasks w) !! ClientThread.pc w = Some c ->
  ClientThread.event_of c = e ->
  (forall who, c = ClientThread.Join who -> ClientThread.status_of who w = Some Finished) ->
  coordinator_inv w st ->
  coordinator_inv (ClientThread.next w) (Store.record Coordinator e st).
Proof.
  intros Hcall <- Hjoin [Hlen Hlog Hjoined Hpub Hcol Hexe].
  pose proof (take_S_r _ _ _ Hcall) as Htake.
  apply lookup_lt_Some in Hcall.
  destruct w as [n sch col exs pc err], st as [[sc comp term] inb outb clk lg].
  cbn in *.
  destruct term as [|x [|]]; [|destruct Hpub; lia|done].
  constructor; cbn; try done.
  - simpl_log. rewrite Htake, map_app, Hlog. cbn. by rewrite !app_nil_r.
  - intros who. rewrite Htake, elem_of_app, list_elem_of_singleton.
    intros [Hin| <-]; [by apply Hjoined in Hin|].
    by specialize (Hjoin who eq_refl); destruct who as [| | |[|k]].
Qed.

Lemma coordinator_inv_store w st st' :
  coordinated (Store.log st') = coordinated (Store.log st) ->
  QueueClient.terminator (Store.client st') = QueueClient.terminator (Store.client st) ->
  coordinator_inv w st -> coordinator_inv w st'.
Proof.
  intros Hl Hc [? ? ? ? ? ?]. constructor; rewrite ?Hl, ?Hc; done.
Qed.

Lemma client_inv_other (w w' : ClientThread.t) (st st' : Store.t) :
  client_inv (w, st) ->
  received (Store.log st') = received (Store.log st) ->
  bundles (Store.log st') = bundles (Store.log st) ->
  forwarded (Store.log st') = forwarded (Store.log st) ->
  ClientThread.scheduler w' = ClientThread.scheduler w \/
  ClientThread.scheduler w' = Thread.start (ClientThread.scheduler w) ->
  coordinator_inv w' st' ->
  client_inv (w', st').
Proof.
  intros [Hsched _] Hr Hb Hf Hs Hc. split; [|done]. cbn in *.
  apply (scheduler_inv_log _ (Store.log st)); try done.
  destruct Hs as [-> | ->]; [done|]. by apply scheduler_inv_start.
Qed.

Lemma client_inv_error e w st :
  client_inv (w, st) -> client_inv (ClientThread.set_error e w, st).
Proof.
  destruct w. intros [? [? ? ? ? ? ?]]. split; [done|]. by constructor.
Qed.

Lemma coordinator_step_inv w st :
  client_inv (w, st) -> client_inv (ClientThread.step w st).
Proof.
  intros Hinv. pose proof Hinv as [Hsched Hcoord].
  pose proof Hcoord as [Hlen Hlog Hjoined Hpub Hcol Hexe].
  cbn [fst snd] in *.
  unfold ClientThread.step.
  destruct (ClientThread.error w) eqn:Herr; [done|].
  rewrite Hlen.
  destruct (ClientThread.shutdown (ClientThread.num_tasks w) !! ClientThread.pc w)
    as [[who|who|r]|] eqn:Hcall.
  - (* Start *)
    apply (client_inv_other w _ st); try done; try by simpl_log.
    + destruct (scheduler_of_start who w) as [Hs|Hs]; [left|right];
        by destruct w.
    + apply (coordinator_inv_next (ClientThread.Start who)); try done.
      * by destruct w, who as [| | |[|k]].
      * apply coordinator_inv_start; [done|]. by apply lookup_lt_Some in Hcall.
  - (* Join *)
    unfold ClientThread.join.
    destruct (ClientThread.status_of who w) as [[]|] eqn:Hstatus; try done;
      try by apply client_inv_error.
    apply (client_inv_other w _ st); try done; try by simpl_log.
    + left. by destruct w.
    + apply (coordinator_inv_next (ClientThread.Join who)); try done.
      by intros ? [= <-].
  - (* Signal *)
    unfold ClientThread.signal, local_put.
    destruct (Queue.put _ _) as [q|]; [|done].
    apply (client_inv_other w _ st); try done.
    1-3: by destruct r, st; simpl_log.
    + left. by destruct w.
    + apply (coordinator_inv_next (ClientThread.Signal r)); try done.
      apply (coordinator_inv_store _ st); try done; by destruct r, st.
  - (* register_final_task *)
    apply lookup_ge_None in Hcall.
    destruct (Nat.eqb_spec (ClientThread.pc w)
                (length (ClientThread.shutdown (ClientThread.num_tasks w))))
      as [Hpc|Hpc]; [|done].
    unfold ClientThread.register_final_task.
    destruct (ClientScheduler.final_task_id _) as [final|] eqn:Hfinal;
      [|by apply client_inv_error].
    apply (client_inv_other w _ st); try done.
    1-3: by destruct st; simpl_log.
    + left. by destruct w.
    + destruct w as [n sch col exs pc err], st as [[sc comp term] inb outb clk lg].
      cbn in *.
      destruct term as [|x [|]]; [|destruct Hpub; lia|done].
      constructor; cbn; try done.
      * simpl_log. rewrite Hlog. rewrite !take_ge by lia. by simpl_log.
      * intros who. rewrite take_ge by lia. intros Hin. apply Hjoined.
        by rewrite take_ge by lia.
      * split; [lia|]. by exists final.
Qed.

Lemma join_scheduler_in_shutdown n :
  ClientThread.Join Scheduler ∈ ClientThread.shutdown n.
Proof.
  unfold ClientThread.shutdown, ClientThread.wait_scheduler.
  rewrite !elem_of_app, list_elem_of_singleton. eauto.
Qed.

Lemma join_collector_in_shutdown n :
  ClientThread.Join Collector ∈ ClientThread.shutdown n.
Proof.
  unfold ClientThread.shutdown, ClientThread.wait_collector.
  rewrite !elem_of_app. do 3 right. apply list_elem_of_In. cbn. eauto.
Qed.

Lemma join_executor_in_shutdown n k :
  (k < n)%nat -> ClientThread.Join (Executor (S k)) ∈ ClientThread.shutdown n.
Proof.
  intros Hk.
  unfold ClientThread.shutdown, ClientThread.wait_executors, ClientThread.executor_ids.
  rewrite !elem_of_app. right. right. left. right.
  apply list_elem_of_fmap. exists (Executor (S k)). split; [done|].
  apply list_elem_of_fmap. exists k. split; [f_equal; lia|].
  apply list_elem_of_In, in_seq. lia.
Qed.

(** Once the terminal id is out, every call of the shutdown has completed. *)
Lemma published_after_shutdown w st c :
  coordinator_inv w st ->
  QueueClient.terminator (Store.client st) <> [] ->
  c ∈ ClientThread.shutdown (ClientThread.num_tasks w) ->
  c ∈ take (ClientThread.pc w) (ClientThread.shutdown (ClientThread.num_tasks w)).
Proof.
  intros [_ _ _ Hpub _ _] Hne Hin.
  destruct (QueueClient.terminator (Store.client st)) as [|x [|]]; try done.
  destruct Hpub as [Hlt _]. by rewrite take_ge by lia.
Qed.

Lemma coordinator_inv_threads w w' st st' :
  coordinator_inv w st ->
  coordinated (Store.log st') = coordinated (Store.log st) ->
  QueueClient.terminator (Store.client st') = QueueClient.terminator (Store.client st) ->
  ClientThread.num_tasks w' = ClientThread.num_tasks w ->
  ClientThread.pc w' = ClientThread.pc w ->
  length (ClientThread.executors w') = length (ClientThread.executors w) ->
  (forall who, ClientThread.status_of who w = Some Finished ->
               ClientThread.status_of who w' = Some Finished) ->
  (Thread.status (ClientThread.scheduler w) = Finished ->
   ClientThread.scheduler w' = ClientThread.scheduler w) ->
  (Thread.status (ClientThread.collector w') = Finished ->
   ClientCollector.state (Thread.machine (ClientThread.collector w')) = CollectorState.HALT) ->
  (forall th, th ∈ ClientThread.executors w' -> Thread.status th = Finished ->
              TaskExecutor.state (Thread.machine th) = TaskState.HALT) ->
  coordinator_inv w' st'.
Proof.
  intros Hinv Hl Ht Hn Hpc Hlen Hfin Hsched Hcol Hexe.
  pose proof Hinv as [Hlen0 Hlog Hjoined Hpub _ _].
  constructor; rewrite ?Hl, ?Ht, ?Hn, ?Hpc; try done.
  - congruence.
  - intros who Hin. by apply Hfin, Hjoined.
  - destruct (QueueClient.terminator (Store.client st)) as [|x [|]] eqn:Hterm; try done.
    destruct Hpub as [Hlt (final & Hfinal & ->)]. split; [done|].
    exists final. split; [|done].
    rewrite Hsched; [done|].
    assert (ClientThread.status_of Scheduler w = Some Finished) as Hs.
    { apply Hjoined. apply (published_after_shutdown w st); try done.
      - by rewrite Hterm.
      - apply join_scheduler_in_shutdown. }
    cbn in Hs. congruence.
Qed.

Lemma client_inv_step a ws :
  client_inv ws -> client_inv (step a ws).
Proof.
  destruct ws as [w st]. intros Hinv.
  pose proof Hinv as [Hsched Hcoord]. cbn [fst snd] in *.
  destruct a as [t|b| | | |k o]; cbn [step].
  - (* Tick *)
    apply (client_inv_other w _ st); try done; [by left|].
    by apply (coordinator_inv_store _ st).
  - (* Send *)
    apply (client_inv_other w _ st); try done; [by left|].
    by apply (coordinator_inv_store _ st).
  - (* StepCoordinator *)
    by apply coordinator_step_inv.
  - (* StepScheduler *)
    destruct (step_scheduler (ClientThread.scheduler w) st) as [th st'] eqn:Hstep.
    pose proof (scheduler_step_log _ _ _ _ Hstep) as (Hret & Hco & Hclk & Hterm).
    pose proof Hcoord as [_ _ _ _ Hcol Hexe].
    destruct w as [n sch col exs pc err]; cbn [ClientThread.scheduler] in *.
    split; cbn [fst snd].
    + by eapply scheduler_step_inv.
    + apply (coordinator_inv_threads _ _ _ _ Hcoord); try done.
      * intros [| | |[|j]]; cbn; try done.
        intros [= Hfin]. unfold step_scheduler in Hstep.
        rewrite thread_step_finished in Hstep by done. congruence.
      * intros Hfin. unfold step_scheduler in Hstep.
        rewrite thread_step_finished in Hstep by done. cbn. congruence.
  - (* StepCollector *)
    destruct (step_collector (ClientThread.collector w) st) as [th st'] eqn:Hstep.
    pose proof (collector_step_log _ _ _ _ Hstep) as (Hr & Hb & Hf & Hret & Hco & Hclk & Hterm).
    pose proof Hcoord as [_ _ _ _ Hcol Hexe].
    destruct w as [n sch col exs pc err]; cbn [ClientThread.collector] in *.
    apply (client_inv_other _ _ _ _ Hinv); try done; [by left|].
    apply (coordinator_inv_threads _ _ _ _ Hcoord); try done.
    + intros [| | |[|j]]; cbn; try done.
      intros [= Hfin]. unfold step_collector in Hstep.
      rewrite thread_step_finished in Hstep by done. congruence.
    + cbn. intros Hfin.
      apply thread_step_halts in Hstep as [-> [Hold|Hnone]]; try done.
      * by apply Hcol.
      * by destruct (ClientCollector.state (Thread.machine col)).
  - (* StepExecutor *)
    destruct (ClientThread.executors w !! k) as [th|] eqn:Hth; [|done].
    destruct (step_executor o th st) as [th' st'] eqn:Hstep.
    pose proof (executor_step_log _ _ _ _ _ Hstep) as (Hr & Hb & Hf & Hco & Hclk & Hterm).
    pose proof Hcoord as [_ _ _ _ Hcol Hexe].
    destruct w as [n sch col exs pc err]; cbn [ClientThread.executors] in *.
    apply (client_inv_other _ _ _ _ Hinv); try done; [by left|].
    apply (coordinator_inv_threads _ _ _ _ Hcoord); try done.
    + cbn. by rewrite length_insert.
    + intros [| | |[|j]]; cbn; try done.
      destruct (decide (k = j)) as [->|Hne].
      * rewrite Hth. cbn. intros [= Hfin]. unfold step_executor in Hstep.
        rewrite thread_step_finished in Hstep by done.
        injection Hstep as <- <-. rewrite list_insert_id by done.
        by rewrite Hth; cbn; rewrite Hfin.
      * by rewrite list_lookup_insert_ne.
    + cbn. intros th0 Hin Hfin.
      apply list_elem_of_lookup in Hin as [i Hi].
      destruct (decide (k = i)) as [->|Hne].
      * rewrite list_lookup_insert_eq in Hi by (by eapply lookup_lt_Some).
        injection Hi as <-.
        apply thread_step_halts in Hstep as [-> [Hold|Hnone]]; try done.
        -- apply Hexe; [|done]. by eapply list_elem_of_lookup_2.
        -- by destruct (TaskExecutor.state (Thread.machine th)).
      * rewrite list_lookup_insert_ne in Hi by done.
        apply Hexe; [|done]. by eapply list_elem_of_lookup_2.
Qed.

Lemma client_inv_run schedule ws :
  client_inv ws -> client_inv (run schedule ws).
Proof.
  revert ws. induction schedule as [|a schedule IH]; intros ws Hinv; [done|].
  cbn. by apply IH, client_inv_step.
Qed.

Lemma client_inv_init n bundlesize bundlewait template t0 :
  client_inv (ClientThread.init n bundlesize bundlewait template t0).
Proof.
  split; cbn.
  - constructor; cbn; try done. by exists [].
  - constructor; cbn; try done.
    + by rewrite length_map, length_seq.
    + intros who Hin. by apply elem_of_nil in Hin.
    + lia.
    + intros th [i [-> _]]%list_elem_of_fmap. done.
Qed.

End ClientFacts.

Section TimingFacts.
Context `{Platform}.

Lemma coordinator_step_log w st w' st' :
  ClientThread.step w st = (w', st') ->
  received (Store.log st') = received (Store.log st) /\
  bundles (Store.log st') = bundles (Store.log st) /\
  forwarded (Store.log st') = forwarded (Store.log st) /\
  returned (Store.log st') = returned (Store.log st) /\
  Store.clock st' = Store.clock st /\
  ClientThread.num_tasks w' = ClientThread.num_tasks w /\
  Thread.machine (ClientThread.scheduler w') = Thread.machine (ClientThread.scheduler w) /\
  forall P : Thread.t TaskExecutor.t -> Prop,
    (forall th, P th -> P (Thread.start th)) ->
    Forall P (ClientThread.executors w) -> Forall P (ClientThread.executors w').
Proof.
  unfold ClientThread.step. intros Hstep.
  destruct w as [n sch col exs pc err]; cbn in Hstep.
  destruct err; [by injection Hstep as <- <-|].
  destruct (ClientThread.shutdown (length exs) !! pc) as [[who|who|r]|].
  - injection Hstep as <- <-. simpl_log.
    destruct who as [| | |[|k]]; cbn; repeat split; try done.
    + apply thread_start_machine.
    + intros P HP Hall. apply Forall_alter; eauto.
  - unfold ClientThread.join in Hstep.
    destruct (ClientThread.status_of who _) as [[]|]; injection Hstep as <- <-;
      simpl_log; done.
  - unfold ClientThread.signal, local_put in Hstep.
    destruct (Queue.put _ _); injection Hstep as <- <-; try done.
    destruct r, st; simpl_log; done.
  - destruct (pc =? _)%nat; [|by injection Hstep as <- <-].
    unfold ClientThread.register_final_task in Hstep. cbn in Hstep.
    destruct (ClientScheduler.final_task_id _); injection Hstep as <- <-; try done.
    destruct st; simpl_log; done.
Qed.






End TimingFacts.

Section ShutdownProperties.
Context `{Platform}.


Lemma step_num_tasks a ws :
  ClientThread.num_tasks (fst (step a ws)) = ClientThread.num_tasks (fst ws).
Proof.
  destruct ws as [w st], a as [t|b| | | |k o]; cbn [step]; try done.
  - destruct (ClientThread.step w st) as [w' st'] eqn:Hs.
    by apply coordinator_step_log in Hs as (_ & _ & _ & _ & _ & Hn & _).
  - by destruct (step_scheduler _ _), w.
  - by destruct (step_collector _ _), w.
  - destruct (ClientThread.executors w !! k); [|done].
    by destruct (step_executor _ _ _), w.
Qed.

Lemma run_num_tasks schedule ws :
  ClientThread.num_tasks (fst (run schedule ws)) = ClientThread.num_tasks (fst ws).
Proof.
  revert ws. induction schedule as [|a schedule IH]; intros ws; [done|].
  cbn [run fold_left]. fold (run schedule (step a ws)).
  by rewrite IH, step_num_tasks.
Qed.

(** A halted scheduler has unpacked every bundle it received, none of them
    empty, and its final task id is the last id of the last one. *)
Lemma halted_scheduler th lg :
  scheduler_inv th lg ->
  ClientScheduler.state (Thread.machine th) = SchedulerState.HALT ->
  Forall (fun b => b <> []) (bundles lg) /\
  ClientScheduler.final_task_id (Thread.machine th) = terminal_id (bundles lg).
Proof.
  intros [_ _ (ds & Hds & Hne & Hfid) _ _ _ _ _] Hhalt.
  unfold pending in Hds. rewrite Hhalt, app_nil_r in Hds. by subst ds.
Qed.

Lemma terminal_id_last bs :
  Forall (fun b => b <> []) bs -> bs <> [] ->
  exists b final,
    last bs = Some b /\ last (map unpack b) = Some final /\
    terminal_id bs = Some (Task.id final).
Proof.
  intros Hne Hbs. unfold terminal_id.
  destruct (last bs) as [b|] eqn:Hlast; [|by apply last_None in Hlast].
  assert (b <> []) as Hb.
  { eapply Forall_forall in Hne; [done|]. by apply last_Some_elem_of. }
  destruct (last (map unpack b)) as [final|] eqn:Hfinal.
  - by exists b, final.
  - apply last_None, fmap_nil_inv in Hfinal. done.
Qed.



(** The coordinator has reached [register_final_task]: everything before
    it in [run] has completed, and the scheduler has halted. *)
Lemma ready_to_register w st :
  client_inv (w, st) ->
  (length (ClientThread.shutdown (ClientThread.num_tasks w)) <= ClientThread.pc w)%nat ->
  Thread.status (ClientThread.scheduler w) = Finished /\
  Forall (fun b => b <> []) (bundles (Store.log st)) /\
  ClientScheduler.final_task_id (Thread.machine (ClientThread.scheduler w)) =
    terminal_id (bundles (Store.log st)).
Proof.
  intros [Hsched Hcoord] Hpc. cbn [fst snd] in *.
  assert (Thread.status (ClientThread.scheduler w) = Finished) as Hfin.
  { destruct Hcoord as [_ _ Hjoined _ _ _].
    specialize (Hjoined Scheduler). cbn in Hjoined.
    rewrite take_ge in Hjoined by done.
    specialize (Hjoined (join_scheduler_in_shutdown _)). congruence. }
  split; [done|]. apply halted_scheduler; [done|].
  destruct Hsched as [_ _ _ _ _ _ Hstatus _]. by rewrite Hfin in Hstatus.
Qed.


(** C10: when the first thing the scheduler reads from [scheduled] is the
    disconnect sentinel, it halts with [final_task_id] still [None], nothing
    is ever published, and [register_final_task] raises instead; in any run,
    a published terminal id means that a non-null bundle was received. *)
Theorem disconnect_before_any_bundle n bundlesize bundlewait template t0 schedule w st :
  run schedule (ClientThread.init n bundlesize bundlewait template t0) = (w, st) ->
  (head (received (Store.log st)) = Some None ->
   ClientScheduler.state (Thread.machine (ClientThread.scheduler w)) = SchedulerState.HALT /\
   ClientScheduler.final_task_id (Thread.machine (ClientThread.scheduler w)) = None /\
   published st = [] /\
   (ClientThread.error w = None ->
    ClientThread.pc w = length (ClientThread.shutdown n) ->
    step StepCoordinator (w, st) = (ClientThread.set_error AttributeError w, st))) /\
  (published st <> [] -> bundles (Store.log st) <> []).
Proof.
  intros Hrun.
  pose proof (client_inv_run schedule _
                (client_inv_init n bundlesize bundlewait template t0)) as Hinv.
  pose proof (run_num_tasks schedule
                (ClientThread.init n bundlesize bundlewait template t0)) as Hn.
  rewrite Hrun in Hinv, Hn. cbn in Hn.
  pose proof Hinv as [Hsched Hcoord]. cbn [fst snd] in *.
  pose proof Hcoord as [Hlen _ _ Hpub _ _].
  assert (published st <> [] -> bundles (Store.log st) <> []) as Hneeds.
  { unfold published. cbn. intros Hne Hnil.
    destruct (QueueClient.terminator (Store.client st)) as [|y [|]] eqn:Hterm; try done.
    destruct Hpub as [Hlt (fid & Hfid & ->)].
    destruct (ready_to_register w st Hinv) as (_ & _ & Hid); [lia|].
    by rewrite Hfid, Hnil in Hid. }
  split; [|done].
  intros Hhead.
  pose proof Hsched as [_ Hrec (ds & Hds & _ & Hfid) _ _ _ _ _].
  assert (bundles (Store.log st) = []) as Hnil.
  { destruct (bundles (Store.log st)); [done|]. by rewrite Hrec in Hhead. }
  rewrite Hnil in Hrec, Hds. symmetry in Hds. apply app_eq_nil in Hds as [-> _].
  assert (ClientScheduler.state (Thread.machine (ClientThread.scheduler w)) =
          SchedulerState.HALT) as Hhalt.
  { rewrite Hrec in Hhead. by destruct (ClientScheduler.state _). }
  assert (published st = []) as Hunpub.
  { destruct (published st) eqn:Hp; [done|]. exfalso. by apply Hneeds. }
  repeat split; try done.
  intros Herr Hpc. cbn [step]. unfold ClientThread.step.
  rewrite Herr, Hlen, Hn, lookup_ge_None_2 by lia.
  rewrite Hpc, Nat.eqb_refl. unfold ClientThread.register_final_task.
  by rewrite Hfid.
Qed.


(** C9: a full [inbound] queue makes [put_local] come back to [PUT_LOCAL]
    with the scheduler and the queue unchanged, so with the same task in
    hand; a queue with room takes the task at its end.  In every run the
    tasks put on [inbound] so far, followed by those the scheduler still
    holds, are the tasks of the received bundles in the server's order; so
    when the scheduler is back in [GET_REMOTE], or has halted, [inbound] has
    been given all of them, in that order. *)
Theorem backpressure_keeps_order n bundlesize bundlewait template t0 schedule w st :
  run schedule (ClientThread.init n bundlesize bundlewait template t0) = (w, st) ->
  let m := Thread.machine (ClientThread.scheduler w) in
  (forall x,
     ClientScheduler.state m = SchedulerState.PUT_LOCAL ->
     ClientScheduler.task m = Some x ->
     (Queue.full (Store.inbound st) = true ->
      ClientScheduler.put_local (m, st) = Return SchedulerState.PUT_LOCAL (m, st)) /\
     (Queue.full (Store.inbound st) = false ->
      exists st',
        ClientScheduler.put_local (m, st) = Return SchedulerState.POP_TASK (m, st') /\
        Queue.items (Store.inbound st') = Queue.items (Store.inbound st) ++ [Some x] /\
        forwarded (Store.log st') = forwarded (Store.log st) ++ [x])) /\
  forwarded (Store.log st) ++ holding m =
    concat (map (map unpack) (bundles (Store.log st))) /\
  (ClientScheduler.state m = SchedulerState.GET_REMOTE \/
   ClientScheduler.state m = SchedulerState.HALT ->
   forwarded (Store.log st) = concat (map (map unpack) (bundles (Store.log st)))).
Proof.
  intros Hrun m.
  pose proof (client_inv_run schedule _
                (client_inv_init n bundlesize bundlewait template t0)) as Hinv.
  rewrite Hrun in Hinv.
  destruct Hinv as [[Hloc _ _ Hfwd Htasks _ _ _] _]. cbn [fst snd] in *.
  fold m in Hloc, Hfwd, Htasks.
  split; [|split]; [|done|].
  - intros x Hstate Htask.
    unfold ClientScheduler.put_local, bind, attr, defined, shared, local_put, Queue.put, ret.
    rewrite Hloc, Htask. cbn.
    split; intros ->; [done|].
    eexists. split; [done|]. destruct st; cbn. by simpl_log.
  - rewrite <- Hfwd. unfold holding.
    intros [Hs|Hs]; rewrite Hs in Htasks |- *; by rewrite Htasks, app_nil_r.
Qed.

End ShutdownProperties.

(** ** Templates *)

Lemma prefix_cons a s1 b s2 :
  String.prefix (String a s1) (String b s2) =
  if ascii_dec a b then String.prefix s1 s2 else false.
Proof. reflexivity. Qed.

Lemma prefix_empty s : String.prefix EmptyString s = true.
Proof. by destruct s. Qed.

Lemma prefix_marker c s :
  String.prefix marker (String c s) = true <->
  c = "{"%char /\ exists s', s = String "}" s'.
Proof.
  unfold marker. rewrite prefix_cons. split.
  - destruct (ascii_dec "{" c) as [<-|]; [|done].
    destruct s as [|d s']; [done|]. rewrite prefix_cons.
    destruct (ascii_dec "}" d) as [<-|]; [|done]. eauto.
  - intros [-> [s' ->]]. destruct (ascii_dec "{" "{"); [|done].
    rewrite prefix_cons. destruct (ascii_dec "}" "}"); [|done].
    apply prefix_empty.
Qed.

Lemma replace_marker_free a s :
  occurs marker s = false -> replace_from marker a 0 s = s.
Proof.
  induction s as [|c s IH]; [done|].
  cbn [occurs replace_from]. intros [Hp Ho]%orb_false_elim.
  rewrite Hp. f_equal. by apply IH.
Qed.

Lemma replace_single_marker a pre post :
  occurs marker pre = false ->
  occurs marker post = false ->
  replace marker a (String.append pre (String.append marker post)) =
  String.append pre (String.append a post).
Proof.
  intros Hpre Hpost.
  assert (forall s, replace marker a s = replace_from marker a 0 s) as -> by done.
  induction pre as [|c pre IH].
  - change (String.append EmptyString ?s) with s.
    change (String.append marker post) with (String "{" (String "}" post)).
    cbn [replace_from].
    assert (String.prefix marker (String "{" (String "}" post)) = true) as ->.
    { apply prefix_marker. eauto. }
    change (String.length marker - 1)%nat with 1%nat. cbn [replace_from].
    f_equal. by apply replace_marker_free.
  - cbn [occurs] in Hpre. apply orb_false_elim in Hpre as [Hp Ho].
    cbn [String.append replace_from].
    destruct (String.prefix marker (String c (String.append pre (String.append marker post))))
      eqn:Hq.
    + exfalso. apply prefix_marker in Hq as [-> [s' Hs']].
      destruct pre as [|d pre]; [done|].
      cbn [String.append] in Hs'. injection Hs' as -> _.
      assert (String.prefix marker (String "{" (String "}" pre)) = true) as Ht.
      { apply prefix_marker. eauto. }
      congruence.
    + f_equal. by apply IH.
Qed.

Section ExecutionProperties.
Context `{Platform}.

(** C8: with a template that holds the marker once, [start_task] renders
    the command as the template with the marker replaced by the task's raw
    argument string, and nothing else changed; that command is the one
    handed to [Popen]. *)
Theorem rendered_command (m : TaskExecutor.t) (st : Store.t) (o : os) x pre post :
  TaskExecutor.task m = Some x ->
  TaskExecutor.template m = String.append pre (String.append marker post) ->
  occurs marker pre = false ->
  occurs marker post = false ->
  popen_fails o = false ->
  exists m' st' x',
    TaskExecutor.start_task o (m, st) = Return TaskState.WAIT_TASK (m', st') /\
    TaskExecutor.task m' = Some x' /\
    Task.command x' = Some (String.append pre (String.append (Task.args x) post)) /\
    Task.args x' = Task.args x /\
    Task.id x' = Task.id x /\
    Store.log st' =
      Store.log st ++
      [(Executor (TaskExecutor.id m),
        Popen (String.append pre (String.append (Task.args x) post))
          (Task.id x) (Task.args x))].
Proof.
  intros Htask Htpl Hpre Hpost Hpopen.
  destruct m as [id tpl inb outb task process state].
  destruct st as [[sch comp term] [ini inmax] [outi outmax] clk lg].
  destruct o as [fails waits], x as [xid xargs xcmd xstart xend xexit xhost].
  cbn [TaskExecutor.task TaskExecutor.template popen_fails] in Htask, Htpl, Hpopen.
  subst task fails.
  remember (TaskExecutor.start_task _ _) as r eqn:Hr. run_in Hr.
  rewrite Htpl, replace_single_marker in Hr by done. subst r.
  eexists _, _, _. split; [done|]. by cbn.
Qed.


(** [since_last >= self.bundlewait], in microseconds. *)
Lemma wait_exceeded wait microseconds :
  (inject_Z wait <= total_seconds microseconds)%Q <-> wait * 1000000 <= microseconds.
Proof. unfold Qle, total_seconds, inject_Z. cbn. lia. Qed.







End ExecutionProperties.

(** ** The collector's bundle *)

Section CollectorBundle.
Context `{Platform}.

Lemma collector_step_bundle th st th' st' :
  step_collector th st = (th', st') ->
  bundle_inv (Thread.machine th) -> bundle_inv (Thread.machine th').
Proof.
  unfold bundle_inv. intros Hstep Hinv.
  destruct th as [status [loc tasks bundle size wait prev state]].
  destruct st as [[sch comp term] [ini inmax] [outi outmax] clk lg].
  cbn in Hinv.
  destruct status; run_in Hstep; try (injection Hstep as <- <-; done).
  destruct state; run_in Hstep; break_in Hstep; injection Hstep as <- <-;
    cbn; try done; intros _; by apply Hinv.
Qed.

Lemma coordinator_step_collector w st :
  Thread.machine (ClientThread.collector (fst (ClientThread.step w st))) =
  Thread.machine (ClientThread.collector w).
Proof.
  unfold ClientThread.step.
  destruct w as [n sch col exs pc err]; cbn.
  destruct err; [done|].
  destruct (ClientThread.shutdown (length exs) !! pc) as [[who|who|r]|].
  - destruct who as [| | |[|k]]; cbn; try done. apply thread_start_machine.
  - unfold ClientThread.join. by destruct (ClientThread.status_of who _) as [[]|].
  - unfold ClientThread.signal. by destruct (local_put _ _ _ _) as [[]|].
  - destruct (pc =? _)%nat; [|done].
    unfold ClientThread.register_final_task. cbn.
    by destruct (ClientScheduler.final_task_id _).
Qed.

Lemma step_bundle a ws :
  bundle_inv (Thread.machine (ClientThread.collector (fst ws))) ->
  bundle_inv (Thread.machine (ClientThread.collector (fst (step a ws)))).
Proof.
  destruct ws as [w st], a as [t|b| | | |k o]; cbn [step fst]; try done.
  - by rewrite coordinator_step_collector.
  - by destruct (step_scheduler _ _), w.
  - destruct (step_collector _ _) as [th st'] eqn:Hs. destruct w; cbn in *.
    by eapply collector_step_bundle.
  - destruct (ClientThread.executors w !! k); [|done].
    by destruct (step_executor _ _ _), w.
Qed.

Lemma run_bundle schedule ws :
  bundle_inv (Thread.machine (ClientThread.collector (fst ws))) ->
  bundle_inv (Thread.machine (ClientThread.collector (fst (run schedule ws)))).
Proof.
  revert ws. induction schedule as [|a schedule IH]; intros ws Hinv; [done|].
  cbn [run fold_left]. by apply IH, step_bundle.
Qed.

(** In every run, [finalize] finds [bundle] empty: it puts nothing on
    [completed] and halts with the pending tasks still in [tasks]. *)
Lemma finalize_never_flushes n bundlesize bundlewait template t0 schedule w st :
  run schedule (ClientThread.init n bundlesize bundlewait template t0) = (w, st) ->
  ClientCollector.state (Thread.machine (ClientThread.collector w)) = CollectorState.FINALIZE ->
  ClientCollector.finalize (Thread.machine (ClientThread.collector w), st) =
    Return CollectorState.HALT (Thread.machine (ClientThread.collector w), st).
Proof.
  intros Hrun Hstate.
  pose proof (run_bundle schedule
                (ClientThread.init n bundlesize bundlewait template t0)) as Hinv.
  rewrite Hrun in Hinv. cbn [fst] in Hinv.
  unfold bundle_inv in Hinv. rewrite Hstate in Hinv.
  unfold ClientCollector.finalize, ClientCollector.put_remote, bind, attr, ret.
  rewrite Hinv; [done| |done]. done.
Qed.

(** Whatever [bundlesize] the client is created with, both local queues get
    the default bundle size as their capacity. *)
Lemma init_queues n bundlesize bundlewait template t0 :
  Queue.maxsize (Store.inbound (snd (ClientThread.init n bundlesize bundlewait template t0))) =
    DEFAULT_BUNDLESIZE /\
  Queue.maxsize (Store.outbound (snd (ClientThread.init n bundlesize bundlewait template t0))) =
    DEFAULT_BUNDLESIZE /\
  ClientCollector.bundlesize
    (Thread.machine
       (ClientThread.collector (fst (ClientThread.init n bundlesize bundlewait template t0)))) =
    bundlesize.
Proof. done. Qed.

End CollectorBundle.

(** ** Concrete runs *)

Section ConcreteRuns.
Import Demo.

(** C2 on a concrete run: one task is received, run and put on [outbound];
    the collector takes it, is told to finalize before either threshold is
    reached, and halts with the task still pending: nothing was ever put on
    [completed], while the terminal id was published. *)
Example finalize_leaves_pending_tasks :
  let ws := run one_task client in
  let done_t1 :=
    Task.Build "t1" "exit 7" (Some "sh -c 'exit 7'"%string) (Some 20) (Some 30) (Some 7)
      (Some "node-1"%string) in
  returned (Store.log (snd ws)) = [done_t1] /\
  Thread.status (ClientThread.collector (fst ws)) = Finished /\
  ClientCollector.state (Thread.machine (ClientThread.collector (fst ws))) =
    CollectorState.HALT /\
  ClientCollector.tasks (Thread.machine (ClientThread.collector (fst ws))) = [done_t1] /\
  QueueClient.completed (Store.client (snd ws)) = [] /\
  published (snd ws) = [encode "t1"].
Proof. vm_compute. repeat split; reflexivity. Qed.

(** C4 on a concrete client: created with [bundlesize = 3] on a platform
    whose default is 1, both local queues have capacity 1; only the
    collector is given the 3. *)
Example queues_have_default_capacity :
  Queue.maxsize (Store.inbound (snd client)) = 1 /\
  Queue.maxsize (Store.outbound (snd client)) = 1 /\
  ClientCollector.bundlesize (Thread.machine (ClientThread.collector (fst client))) = 3.
Proof. vm_compute. repeat split; reflexivity. Qed.



(** The run [no_task]: the scheduler halts without a final task id and the
    registration raises. *)
Lemma disconnect_before_any_bundle_witness :
  run no_task client = (fst (run no_task client), snd (run no_task client)) /\
  head (received (Store.log (snd (run no_task client)))) = Some None /\
  ClientScheduler.state (Thread.machine (ClientThread.scheduler (fst (run no_task client)))) =
    SchedulerState.HALT /\
  ClientScheduler.final_task_id
    (Thread.machine (ClientThread.scheduler (fst (run no_task client)))) = None /\
  published (snd (run no_task client)) = [] /\
  ClientThread.error (fst (run no_task client)) = Some AttributeError.
Proof.
  assert (run no_task client = (fst (run no_task client), snd (run no_task client)))
    as Hrun by (vm_compute; reflexivity).
  assert (head (received (Store.log (snd (run no_task client)))) = Some None)
    as Hhead by (vm_compute; reflexivity).
  split; [exact Hrun|]. split; [exact Hhead|].
  destruct (proj1 (disconnect_before_any_bundle 1 3 3600 "sh -c '{}'" 0 no_task _ _ Hrun)
              Hhead) as (Hhalt & Hnone & Hunpub & _).
  split; [exact Hhalt|]. split; [exact Hnone|]. split; [exact Hunpub|].
  vm_compute; reflexivity.
Defined.


(** The run [backpressure]: [inbound] is full and the scheduler holds [t2]. *)
Lemma backpressure_keeps_order_witness :
  run backpressure client = (fst (run backpressure client), snd (run backpressure client)) /\
  Queue.full (Store.inbound (snd (run backpressure client))) = true /\
  holding (Thread.machine (ClientThread.scheduler (fst (run backpressure client)))) = [t2] /\
  forwarded (Store.log (snd (run backpressure client))) ++
    holding (Thread.machine (ClientThread.scheduler (fst (run backpressure client)))) =
  concat (map (map unpack) (bundles (Store.log (snd (run backpressure client))))).
Proof.
  assert (run backpressure client =
          (fst (run backpressure client), snd (run backpressure client)))
    as Hrun by (vm_compute; reflexivity).
  split; [exact Hrun|].
  split; [vm_compute; reflexivity|]. split; [vm_compute; reflexivity|].
  exact (proj1 (proj2
    (backpressure_keeps_order 1 3 3600 "sh -c '{}'" 0 backpressure _ _ Hrun))).
Defined.


(** The template [sh -c '{}'] and the arguments [exit 7]. *)
Lemma rendered_command_witness :
  exists m' st' x',
    TaskExecutor.start_task (OS false None) (starting, snd client) =
      Return TaskState.WAIT_TASK (m', st') /\
    TaskExecutor.task m' = Some x' /\
    Task.command x' = Some "sh -c 'exit 7'"%string.
Proof.
  destruct (rendered_command starting (snd client) (OS false None) t1 "sh -c '" "'"
              eq_refl eq_refl eq_refl eq_refl eq_refl)
    as (m' & st' & x' & Hstart & Htask & Hcmd & _).
  exists m', st', x'. split; [exact Hstart|]. split; [exact Htask|]. exact Hcmd.
Defined.



End ConcreteRuns.

(** * The pipeline as a whole: proofs *)

Arguments taken : simpl never.
Arguments collected : simpl never.
Arguments spawned : simpl never.
Arguments exited : simpl never.

(** ** More of the log *)

Lemma taken_snoc lg a e :
  taken (lg ++ [(a, e)]) =
  taken lg ++ match a, e with Executor _, GetLocal Inbound (Some x) => [x] | _, _ => [] end.
Proof.
  unfold taken. rewrite omap_app. f_equal.
  destruct a; try done. destruct e as [| | [|] [x|] | | | | | |]; done.
Qed.

Lemma collected_snoc lg a e :
  collected (lg ++ [(a, e)]) =
  collected lg ++ match a, e with Collector, GetLocal Outbound (Some x) => [x] | _, _ => [] end.
Proof.
  unfold collected. rewrite omap_app. f_equal.
  destruct a; try done. destruct e as [| | [|] [x|] | | | | | |]; done.
Qed.

Lemma spawned_snoc lg a e :
  spawned (lg ++ [(a, e)]) =
  spawned lg ++ match a, e with Executor _, Popen c i x => [(c, i, x)] | _, _ => [] end.
Proof.
  unfold spawned. rewrite omap_app. f_equal.
  destruct a; try done. destruct e; done.
Qed.

Lemma exited_snoc lg a e :
  exited (lg ++ [(a, e)]) =
  exited lg ++ match a, e with Executor _, Exited s => [s] | _, _ => [] end.
Proof.
  unfold exited. rewrite omap_app. f_equal.
  destruct a; try done. destruct e; done.
Qed.

#[local] Hint Rewrite taken_snoc collected_snoc spawned_snoc exited_snoc : log.

Lemma tasks_of_snoc items x :
  tasks_of (items ++ [x]) = tasks_of items ++ option_list x.
Proof. unfold tasks_of. rewrite omap_app. by destruct x. Qed.

Lemma tasks_of_queued ts k : tasks_of (queued ts k) = ts.
Proof.
  unfold tasks_of, queued. rewrite omap_app.
  assert (omap (fun x : option Task.t => x) (repeat None k) = []) as ->.
  { induction k as [|k IH]; [done|]. by cbn. }
  rewrite app_nil_r. induction ts as [|x ts IH]; [done|]. cbn. by rewrite IH.
Qed.

(** Replacing one element of a list. *)
Lemma insert_middle {A} (l : list A) k x y :
  l !! k = Some x ->
  exists l1 l2, l = l1 ++ x :: l2 /\ <[k := y]> l = l1 ++ y :: l2.
Proof.
  intros Hk. exists (take k l), (drop (S k) l). split.
  - by rewrite take_drop_middle.
  - by apply insert_take_drop, lookup_lt_Some with x.
Qed.

(** ** Steps, seen from outside *)

Section ExecutorSteps.
Context `{Platform}.
Import TaskState.

Lemma executor_step_effect template o th st th' st' :
  step_executor o th st = (th', st') ->
  executor_holds template (Thread.machine th) ->
  executor_holds template (Thread.machine th') /\
  executor_effect template (Thread.machine th) (Thread.machine th') st st' /\
  (Thread.status th <> Running -> th' = th /\ st' = st).
Proof.
  intros Hstep [Hin Hout Htpl Htask].
  destruct th as [status [id tpl inb outb task process state]].
  destruct st as [[sch comp term] [ini inmax] [outi outmax] clk lg].
  cbn in Hin, Hout, Htpl, Htask. subst inb outb tpl.
  destruct status; run_in Hstep;
    try (injection Hstep as <- <-; repeat split; try done; by constructor).
  destruct state; run_in Hstep; cbn in Htask.
  - (* START *)
    injection Hstep as <- <-. repeat split; try done. by constructor.
  - (* GET_LOCAL *)
    break_in Hstep; injection Hstep as <- <-;
      (repeat split; try done; cbn; by econstructor).
  - (* START_TASK *)
    destruct task as [x|]; [|done].
    break_in Hstep; injection Hstep as <- <-;
      (repeat split; try done; eauto; try (by econstructor)).
    match goal with
    | |- executor_effect _
           (Thread.machine (Thread.Build _ (TaskExecutor.Build _ _ _ _ (Some ?y) _ _))) _ _ _ =>
        change (replace_from marker ?a 0 ?t) with (replace marker a t);
        by refine (ee_spawn template _ _ _ id y _ _ _ _ _ _ _ _ _ _)
    end.
  - (* WAIT_TASK *)
    destruct Htask as (x & -> & (Hcmd & Hhost & Hstart) & Hproc).
    destruct process as [p|]; [|done].
    break_in Hstep; injection Hstep as <- <-;
      (repeat split; try done; cbn; eauto; try (by econstructor)).
    all: eexists; repeat split; try done.
  - (* PUT_LOCAL *)
    destruct Htask as (x & -> & Hr & Hexit & Hend).
    break_in Hstep; injection Hstep as <- <-;
      (repeat split; try done; cbn; eauto; try (by econstructor)).
  - (* FINALIZE *)
    injection Hstep as <- <-. repeat split; try done. by constructor.
  - (* HALT *)
    injection Hstep as <- <-. repeat split; try done. by constructor.
Qed.

End ExecutorSteps.

Section OtherSteps.
Context `{Platform}.

Lemma scheduler_step_effect th st th' st' :
  step_scheduler th st = (th', st') ->
  ClientScheduler.local (Thread.machine th) = Inbound ->
  scheduler_effect st st' /\
  (Thread.status th <> Running -> th' = th /\ st' = st).
Proof.
  intros Hstep Hloc.
  destruct th as [status [loc bundle task tasks fid state]].
  destruct st as [[sch comp term] [ini inmax] [outi outmax] clk lg].
  cbn in Hloc. subst loc.
  destruct status; run_in Hstep;
    try (injection Hstep as <- <-; repeat split; try done; by constructor).
  destruct state; run_in Hstep; break_in Hstep; injection Hstep as <- <-;
    (split; [|done]); try (by constructor); cbn; by econstructor.
Qed.

Lemma collector_step_effect th st th' st' :
  step_collector th st = (th', st') ->
  ClientCollector.local (Thread.machine th) = Outbound ->
  collector_effect (Thread.machine th) (Thread.machine th') st st' /\
  ClientCollector.local (Thread.machine th') = Outbound /\
  (Thread.status th <> Running -> th' = th /\ st' = st).
Proof.
  intros Hstep Hloc.
  destruct th as [status [loc tasks bundle size wait prev state]].
  destruct st as [[sch comp term] [ini inmax] [outi outmax] clk lg].
  cbn in Hloc. subst loc.
  destruct status; run_in Hstep;
    try (injection Hstep as <- <-; repeat split; try done; by constructor).
  destruct state; run_in Hstep; break_in Hstep; injection Hstep as <- <-;
    (split; [|done]); try (by constructor); cbn; by econstructor.
Qed.

End OtherSteps.

Section CoordinatorSteps.
Context `{Platform}.

Lemma coordinator_step_effect w st w' st' :
  ClientThread.step w st = (w', st') ->
  coordinator_effect w w' st st' /\
  ClientThread.num_tasks w' = ClientThread.num_tasks w /\
  Thread.machine (ClientThread.scheduler w') = Thread.machine (ClientThread.scheduler w) /\
  Thread.machine (ClientThread.collector w') = Thread.machine (ClientThread.collector w) /\
  map Thread.machine (ClientThread.executors w') =
    map Thread.machine (ClientThread.executors w).
Proof.
  unfold ClientThread.step. intros Hstep.
  destruct w as [n sch col exs pc err]; cbn in Hstep.
  destruct err; [injection Hstep as <- <-; repeat split; by constructor|].
  destruct (ClientThread.shutdown (length exs) !! pc) as [[who|who|r]|] eqn:Hcall.
  - injection Hstep as <- <-.
    split. { apply (cd_call _ _ _ (ClientThread.Start who)); try done. by destruct who as [| | |[|k]]. }
    destruct who as [| | |[|k]]; cbn; repeat split; try done;
      try apply thread_start_machine.
    apply list_eq. intros i. rewrite !list_lookup_fmap, list_lookup_alter.
    destruct (decide (k = i)) as [->|]; [|done].
    destruct (exs !! i); [|done]. cbn. by rewrite thread_start_machine.
  - unfold ClientThread.join in Hstep.
    destruct (ClientThread.status_of who _) as [[]|]; injection Hstep as <- <-;
      repeat split; try (by constructor).
    by apply (cd_call _ _ _ (ClientThread.Join who)).
  - unfold ClientThread.signal, local_put, Queue.put in Hstep.
    destruct (Queue.full _) eqn:Hfull; injection Hstep as <- <-;
      repeat split; try (by constructor).
  - destruct (pc =? _)%nat; [|injection Hstep as <- <-; repeat split; by constructor].
    unfold ClientThread.register_final_task in Hstep. cbn in Hstep.
    destruct (ClientScheduler.final_task_id _); injection Hstep as <- <-;
      repeat split; try (by constructor).
Qed.

End CoordinatorSteps.

Arguments replace : simpl never.
Arguments tasks_of : simpl never.
Arguments inflight : simpl never.
Arguments flying : simpl never.
Arguments started : simpl never.
Arguments underway : simpl never.
Arguments job_of : simpl never.
Arguments has_child : simpl never.
Arguments children : simpl never.
Arguments has_stopped : simpl never.
Arguments stopped : simpl never.
Arguments collector_stopped : simpl never.

Lemma tasks_of_cons x items :
  tasks_of (x :: items) = option_list x ++ tasks_of items.
Proof. by destruct x. Qed.

(** ** Where the tasks are *)

Section FlowFacts.
Context `{Platform}.

Lemma spawned_later template (js js' : list (string * string)) cs :
  (forall j, j ∈ js -> j ∈ js') ->
  Forall (fun '(c, i, a) => c = replace marker a template /\ (i, a) ∈ js) cs ->
  Forall (fun '(c, i, a) => c = replace marker a template /\ (i, a) ∈ js') cs.
Proof.
  intros Hsub Hall. eapply Forall_impl; [done|].
  intros [[c i] a] [Hc Hj]. split; [done|]. by apply Hsub.
Qed.

Lemma flying_middle l1 th l2 :
  flying (l1 ++ th :: l2) = flying l1 ++ inflight (Thread.machine th) ++ flying l2.
Proof. unfold flying. by rewrite map_app, concat_app. Qed.

Lemma underway_middle l1 th l2 :
  underway (l1 ++ th :: l2) = underway l1 ++ started (Thread.machine th) ++ underway l2.
Proof. unfold underway. by rewrite map_app, concat_app. Qed.

Lemma underway_machines exs exs' :
  map Thread.machine exs' = map Thread.machine exs -> underway exs' = underway exs.
Proof.
  intros Heq. unfold underway.
  rewrite <- (map_map Thread.machine started exs'), Heq. by rewrite map_map.
Qed.

Lemma children_middle l1 th l2 :
  children (l1 ++ th :: l2) =
  (children l1 + (has_child (Thread.machine th) + children l2))%nat.
Proof. unfold children. by rewrite sum_list_with_app. Qed.

Lemma stopped_middle l1 th l2 :
  stopped (l1 ++ th :: l2) =
  (stopped l1 + (has_stopped (Thread.machine th) + stopped l2))%nat.
Proof. unfold stopped. by rewrite sum_list_with_app. Qed.

Lemma flying_machines exs exs' :
  map Thread.machine exs' = map Thread.machine exs -> flying exs' = flying exs.
Proof.
  intros Heq. unfold flying.
  rewrite <- (map_map Thread.machine inflight exs'), Heq. by rewrite map_map.
Qed.

Lemma children_machines exs exs' :
  map Thread.machine exs' = map Thread.machine exs -> children exs' = children exs.
Proof.
  revert exs'. induction exs as [|th exs IH]; intros [|th' exs'] Heq; try done.
  injection Heq as Hm Heq. unfold children in *. cbn. by rewrite Hm, (IH _ Heq).
Qed.

Lemma stopped_machines exs exs' :
  map Thread.machine exs' = map Thread.machine exs -> stopped exs' = stopped exs.
Proof.
  revert exs'. induction exs as [|th exs IH]; intros [|th' exs'] Heq; try done.
  injection Heq as Hm Heq. unfold stopped in *. cbn. by rewrite Hm, (IH _ Heq).
Qed.

Lemma holds_machines template exs exs' :
  map Thread.machine exs' = map Thread.machine exs ->
  Forall (fun th => executor_holds template (Thread.machine th)) exs ->
  Forall (fun th => executor_holds template (Thread.machine th)) exs'.
Proof.
  intros Heq Hall.
  apply (Forall_fmap Thread.machine (executor_holds template)).
  change (Thread.machine <$> exs') with (map Thread.machine exs'). rewrite Heq.
  by apply (Forall_fmap Thread.machine (executor_holds template)).
Qed.

Lemma flow_inv_step template a ws :
  client_inv ws -> flow_inv template ws -> flow_inv template (step a ws).
Proof.
  destruct ws as [w st].
  intros [[Hloc _ _ _ _ _ _ _] _] [Hexs Hcol Hin Hout Hjobs Hret Hsp Hruns Hch].
  cbn [fst snd] in *.
  destruct a as [t|b| | | |k o]; cbn [step].
  - (* Tick *) by constructor.
  - (* Send *) by constructor.
  - (* StepCoordinator *)
    destruct (ClientThread.step w st) as [w' st'] eqn:Hstep.
    apply coordinator_step_effect in Hstep as (Heff & _ & _ & Hcm & Hem).
    pose proof (flying_machines _ _ Hem) as Hfly.
    pose proof (underway_machines _ _ Hem) as Hund.
    pose proof (children_machines _ _ Hem) as Hchild.
    pose proof (holds_machines template _ _ Hem Hexs) as Hexs'.
    destruct Heff as [Hpc|c Hcall Hc Hpc|r Hcall Hpc Hfull|x Hcall Hpc];
      constructor; cbn [fst snd]; rewrite ?Hcm, ?Hfly, ?Hund, ?Hchild; try done.
    all: try (destruct c as [who|who|r]; [| |by destruct (Hc r)]).
    all: try (simpl_log; done).
    all: destruct r; simpl_log; rewrite ?tasks_of_snoc; simpl_log; done.
  - (* StepScheduler *)
    destruct (step_scheduler (ClientThread.scheduler w) st) as [th st'] eqn:Hstep.
    apply scheduler_step_effect in Hstep as [Heff _]; [|done].
    destruct w as [n sch col exs pc err]; cbn [ClientThread.scheduler] in *.
    destruct Heff as [|b rest Hsch|x Hfull]; constructor; cbn [fst snd]; try done.
    all: try (simpl_log; done).
    + simpl_log. rewrite tasks_of_snoc. cbn. by rewrite app_assoc, Hin.
  - (* StepCollector *)
    destruct (step_collector (ClientThread.collector w) st) as [th st'] eqn:Hstep.
    apply collector_step_effect in Hstep as (Heff & Hloc' & _); [|done].
    destruct w as [n sch col exs pc err]; cbn [ClientThread.collector] in *.
    destruct Heff as [Hs|x rest Hitems Hs Hs'|rest Hitems Hs Hs'|b Hs];
      constructor; cbn [fst snd]; try done.
    all: try (simpl_log; done).
    + simpl_log. rewrite <- Hout, Hitems. cbn. by rewrite <- app_assoc.
    + simpl_log. rewrite <- Hout, Hitems. done.
  - (* StepExecutor *)
    destruct (ClientThread.executors w !! k) as [th|] eqn:Hth; [|by constructor].
    destruct (step_executor o th st) as [th' st'] eqn:Hstep.
    apply (executor_step_effect template) in Hstep as (Hholds & Heff & _);
      [|by eapply (Forall_lookup_1 _ _ _ _ Hexs)].
    destruct w as [n sch col exs pc err]; cbn [ClientThread.executors] in *.
    destruct (insert_middle exs k th th' Hth) as (l1 & l2 & -> & ->).
    apply Forall_app in Hexs as [Hl1 [_ Hl2]%Forall_cons].
    rewrite flying_middle in Hjobs. rewrite children_middle in Hch.
    rewrite underway_middle in Hruns.
    assert (Forall (fun th => executor_holds template (Thread.machine th))
              (l1 ++ th' :: l2)) as Hexs'.
    { apply Forall_app. split; [done|]. by constructor. }
    destruct Heff as [Hfly Hrun Hchild Hstop
                     |i x rest Hitems Hfly Hfly' Hrun Hrun' Hchild Hchild' Hstop Hstop'
                     |i rest Hitems Hfly Hfly' Hrun Hrun' Hchild Hchild' Hstop Hstop'
                     |i x x' Hfly Hfly' Hjob Hrun Hrun' Hchild Hchild' Hstop Hstop'
                     |i s x x' Hfly Hfly' Hjob Hrun Hrun' Hchild Hchild' Hstop Hstop'
                     |i x Hfull Hfly Hfly' Hrun Hrun' Hr Hexit Hend Hchild Hchild' Hstop Hstop'];
      constructor; cbn [fst snd ClientThread.executors ClientThread.collector];
      rewrite ?flying_middle, ?children_middle, ?underway_middle; simpl_log; try done.
    + (* nothing moves *)
      rewrite flying_middle, !map_app, Hfly. by rewrite !map_app in Hjobs.
    + rewrite underway_middle, !map_app, Hrun. by rewrite !map_app in Hruns.
    + by rewrite children_middle, Hchild.
    + (* a task is taken *)
      rewrite <- Hin, Hitems, tasks_of_cons. cbn. by rewrite <- app_assoc.
    + rewrite flying_middle, Hfly', !map_app.
      rewrite Hfly, !map_app in Hjobs. rewrite Hjobs. cbn. solve_Permutation.
    + eapply spawned_later; [|done]. intros j Hj. rewrite map_app, elem_of_app. by left.
    + rewrite underway_middle, Hrun'. by rewrite Hrun in Hruns.
    + rewrite children_middle, Hchild'. by rewrite Hchild in Hch.
    + (* a sentinel is taken *)
      by rewrite <- Hin, Hitems, tasks_of_cons.
    + rewrite flying_middle, Hfly'. by rewrite Hfly in Hjobs.
    + rewrite underway_middle, Hrun'. by rewrite Hrun in Hruns.
    + rewrite children_middle, Hchild'. by rewrite Hchild in Hch.
    + (* a child is created *)
      rewrite flying_middle, Hfly', !map_app.
      rewrite Hfly, !map_app in Hjobs. cbn in *. by rewrite Hjob.
    + apply Forall_app. split; [done|]. constructor; [|done]. split; [done|].
      rewrite Hjobs, Hfly, !map_app, !elem_of_app. right. right. left.
      apply list_elem_of_singleton. done.
    + rewrite underway_middle, Hrun', !map_app.
      rewrite Hrun, !map_app in Hruns. rewrite Hruns. cbn. rewrite Hjob.
      unfold job at 5. unfold job_of. solve_Permutation.
    + rewrite children_middle, Hchild', length_app. cbn. rewrite Hchild in Hch. lia.
    + (* a child has exited *)
      rewrite flying_middle, Hfly', !map_app.
      rewrite Hfly, !map_app in Hjobs. cbn in *. by rewrite Hjob.
    + rewrite underway_middle, Hrun', !map_app.
      rewrite Hrun, !map_app in Hruns. cbn in *. by rewrite Hjob.
    + rewrite children_middle, Hchild', length_app. cbn. rewrite Hchild in Hch. lia.
    + (* a task is put on outbound *)
      rewrite tasks_of_snoc. cbn. by rewrite app_assoc, Hout.
    + rewrite flying_middle, Hfly', !map_app.
      rewrite Hfly, !map_app in Hjobs. rewrite Hjobs. cbn. solve_Permutation.
    + apply Forall_app. split; [done|]. by constructor.
    + rewrite underway_middle, Hrun', !map_app.
      rewrite Hrun, !map_app in Hruns. rewrite Hruns. cbn. solve_Permutation.
    + rewrite children_middle, Hchild'. by rewrite Hchild in Hch.
Qed.

Lemma flow_inv_run template schedule ws :
  client_inv ws -> flow_inv template ws -> flow_inv template (run schedule ws).
Proof.
  revert ws. induction schedule as [|a schedule IH]; intros ws Hc Hinv; [done|].
  cbn [run fold_left]. apply IH; [by apply client_inv_step|by apply flow_inv_step].
Qed.

Lemma flow_inv_init n bundlesize bundlewait template t0 :
  flow_inv template (ClientThread.init n bundlesize bundlewait template t0).
Proof.
  constructor; cbn; try done.
  - apply Forall_fmap, Forall_forall. by intros count _.
  - unfold flying. induction (seq 0 n) as [|count l IH]; [done|]. done.
  - unfold underway. induction (seq 0 n) as [|count l IH]; [done|]. done.
  - unfold children. induction (seq 0 n) as [|count l IH]; [done|]. done.
Qed.

End FlowFacts.

(** ** What the collector holds and sends *)

Section CollectorInvariant.
Context `{Platform}.
Import CollectorState.

Lemma collector_step_holds bundlesize th st th' st' :
  step_collector th st = (th', st') ->
  collector_holds bundlesize (Thread.machine th) st ->
  collector_holds bundlesize (Thread.machine th') st'.
Proof.
  intros Hstep [Hloc Hsize Hbundle Hpend Hcomp Hsizes].
  destruct th as [status [loc tasks bundle size wait prev state]].
  destruct st as [[sch comp term] [ini inmax] [outi outmax] clk lg].
  cbn in Hloc, Hsize, Hbundle, Hpend, Hcomp, Hsizes. subst loc size.
  destruct status; run_in Hstep;
    try (injection Hstep as <- <-; by constructor).
  unfold capacity in *.
  destruct state; run_in Hstep; break_in Hstep; injection Hstep as <- <-;
    constructor; simpl_log; try done; unfold capacity in *; subst;
    rewrite ?length_app, ?map_app; cbn [length]; try lia.
  - by rewrite app_assoc, Hcomp.
  - symmetry in Hbundle. apply map_eq_nil in Hbundle as ->. cbn. lia.
  - rewrite concat_app. cbn. by rewrite app_nil_r, Hbundle.
  - apply Forall_app. split; [done|]. constructor; [|done].
    rewrite Hbundle, length_map. split; [|done].
    destruct tasks; [done|]. cbn. lia.
Qed.

Lemma collector_holds_frame bundlesize m st st' :
  QueueClient.completed (Store.client st') = QueueClient.completed (Store.client st) ->
  collected (Store.log st') = collected (Store.log st) ->
  collector_holds bundlesize m st -> collector_holds bundlesize m st'.
Proof. intros Hc Hl [? ? ? ? ? ?]. constructor; rewrite ?Hc, ?Hl; done. Qed.

Lemma collector_inv_step template bundlesize a ws :
  client_inv ws -> flow_inv template ws ->
  collector_inv bundlesize ws -> collector_inv bundlesize (step a ws).
Proof.
  destruct ws as [w st]. unfold collector_inv.
  intros [[Hloc _ _ _ _ _ _ _] _] [Hexs _ _ _ _ _ _ _ _] Hinv.
  cbn [fst snd] in *.
  destruct a as [t|b| | | |k o]; cbn [step].
  - by apply (collector_holds_frame _ _ st).
  - by apply (collector_holds_frame _ _ st).
  - destruct (ClientThread.step w st) as [w' st'] eqn:Hstep.
    apply coordinator_step_effect in Hstep as (Heff & _ & _ & Hcm & _).
    cbn [fst snd]. rewrite Hcm. apply (collector_holds_frame _ _ st); [| |done].
    + destruct Heff as [Hpc|c Hcall Hc Hpc|r Hcall Hpc Hfull|x Hcall Hpc]; try done.
      by destruct r.
    + destruct Heff as [Hpc|c Hcall Hc Hpc|r Hcall Hpc Hfull|x Hcall Hpc];
        try done; try (by simpl_log).
      by destruct r; simpl_log.
  - destruct (step_scheduler (ClientThread.scheduler w) st) as [th st'] eqn:Hstep.
    apply scheduler_step_effect in Hstep as [Heff _]; [|done].
    destruct w as [n sch col exs pc err]; cbn [fst snd ClientThread.collector] in *.
    apply (collector_holds_frame _ _ st); [| |done];
      destruct Heff; try done; by simpl_log.
  - destruct (step_collector (ClientThread.collector w) st) as [th st'] eqn:Hstep.
    destruct w as [n sch col exs pc err]; cbn [fst snd ClientThread.collector] in *.
    by eapply collector_step_holds.
  - destruct (ClientThread.executors w !! k) as [th|] eqn:Hth; [|done].
    destruct (step_executor o th st) as [th' st'] eqn:Hstep.
    apply (executor_step_effect template) in Hstep as (_ & Heff & _);
      [|by eapply (Forall_lookup_1 _ _ _ _ Hexs)].
    destruct w as [n sch col exs pc err]; cbn [fst snd ClientThread.collector] in *.
    apply (collector_holds_frame _ _ st); [| |done];
      destruct Heff; try done; by simpl_log.
Qed.

Lemma collector_inv_init n bundlesize bundlewait template t0 :
  collector_inv bundlesize (ClientThread.init n bundlesize bundlewait template t0).
Proof. by constructor. Qed.

Lemma pipeline_inv_run n bundlesize bundlewait template t0 schedule :
  pipeline_inv template bundlesize
    (run schedule (ClientThread.init n bundlesize bundlewait template t0)).
Proof.
  assert (forall ws, pipeline_inv template bundlesize ws ->
                     pipeline_inv template bundlesize (run schedule ws)) as Hrun.
  { induction schedule as [|a schedule IH]; intros ws Hinv; [done|].
    cbn [run fold_left]. apply IH. destruct Hinv as (Hc & Hf & Hk).
    split; [by apply client_inv_step|].
    split; [by apply flow_inv_step|by eapply collector_inv_step]. }
  apply Hrun. split; [apply client_inv_init|].
  split; [apply flow_inv_init|apply collector_inv_init].
Qed.

End CollectorInvariant.

(** ** Sentinels *)

Arguments signals : simpl never.
Arguments queued : simpl never.

Lemma signals_app r l1 l2 : signals r (l1 ++ l2) = (signals r l1 + signals r l2)%nat.
Proof. unfold signals. by rewrite omap_app, length_app. Qed.

Lemma signals_take r l p : (signals r (take p l) <= signals r l)%nat.
Proof.
  rewrite <- (take_drop p l) at 2. rewrite signals_app. lia.
Qed.

Lemma signals_none r (f : actor -> ClientThread.call) l :
  (forall who r', f who <> ClientThread.Signal r') -> signals r (map f l) = 0%nat.
Proof.
  intros Hf. induction l as [|who l IH]; [done|].
  cbn. specialize (Hf who). unfold signals in *. cbn.
  destruct (f who) as [?|?|r']; try done. by destruct (Hf r').
Qed.

Lemma signals_repeat r r' k :
  signals r (repeat (ClientThread.Signal r') k) =
  match r, r' with Inbound, Inbound | Outbound, Outbound => k | _, _ => 0%nat end.
Proof.
  induction k as [|k IH]; [by destruct r, r'|].
  unfold signals in *. cbn. destruct r, r'; cbn; by rewrite ?IH.
Qed.

(** The calls before the first sentinel on [r] have completed once a
    sentinel has been put on [r]. *)
Lemma signals_after r pre rest p c :
  signals r pre = 0%nat ->
  (0 < signals r (take p (pre ++ rest)))%nat ->
  c ∈ pre -> c ∈ take p (pre ++ rest).
Proof.
  intros Hpre Hpos Hin.
  destruct (decide (p <= length pre)%nat) as [Hle|Hgt].
  - rewrite take_app_le in Hpos by done.
    pose proof (signals_take r pre p). lia.
  - rewrite take_app_ge by lia. apply elem_of_app. by left.
Qed.

Lemma signals_next r l p c :
  l !! p = Some c ->
  signals r (take (S p) l) =
  (signals r (take p l) + signals r [c])%nat.
Proof. intros Hc. by rewrite (take_S_r _ _ _ Hc), signals_app. Qed.

Lemma signals_inbound_joined n p :
  (0 < signals Inbound (take p (ClientThread.shutdown n)))%nat ->
  ClientThread.Join Scheduler ∈ take p (ClientThread.shutdown n).
Proof.
  unfold ClientThread.shutdown, ClientThread.wait_scheduler.
  rewrite (app_assoc (ClientThread.start_threads n)).
  intros Hpos. eapply signals_after; [|done|].
  - unfold ClientThread.start_threads. rewrite !signals_app.
    by rewrite (signals_none _ ClientThread.Start).
  - apply elem_of_app. right. by apply list_elem_of_singleton.
Qed.

Lemma signals_outbound_joined n p k :
  (0 < signals Outbound (take p (ClientThread.shutdown n)))%nat ->
  (k < n)%nat ->
  ClientThread.Join (Executor (S k)) ∈ take p (ClientThread.shutdown n).
Proof.
  unfold ClientThread.shutdown, ClientThread.wait_scheduler, ClientThread.wait_executors,
    ClientThread.wait_collector.
  rewrite !app_assoc. intros Hpos Hk. eapply signals_after; [|done|].
  - unfold ClientThread.start_threads. rewrite !signals_app.
    rewrite (signals_none _ ClientThread.Start), (signals_none _ ClientThread.Join) by done.
    by rewrite signals_repeat.
  - apply elem_of_app. right. unfold ClientThread.executor_ids.
    apply list_elem_of_fmap. exists (Executor (S k)). split; [done|].
    apply list_elem_of_fmap. exists k. split; [f_equal; lia|].
    apply list_elem_of_In, in_seq. lia.
Qed.

Lemma queued_snoc_task ts x : queued ts 0 ++ [Some x] = queued (ts ++ [x]) 0.
Proof. unfold queued. cbn. by rewrite !app_nil_r, map_app. Qed.

Lemma queued_snoc_sentinel ts k : queued ts k ++ [None] = queued ts (S k).
Proof.
  unfold queued. rewrite <- app_assoc. f_equal.
  induction k as [|k IH]; [done|]. cbn. by rewrite IH.
Qed.

Lemma queued_task ts k x rest :
  queued ts k = Some x :: rest -> exists ts', ts = x :: ts' /\ rest = queued ts' k.
Proof.
  unfold queued. destruct ts as [|y ts]; cbn.
  - by destruct k.
  - intros [= -> <-]. by exists ts.
Qed.

Lemma queued_sentinel ts k rest :
  queued ts k = None :: rest -> ts = [] /\ exists k', k = S k' /\ rest = queued [] k'.
Proof.
  unfold queued. destruct ts as [|y ts]; cbn; [|done].
  destruct k as [|k']; [done|]. cbn. intros [= <-]. eauto.
Qed.

Lemma signals_call r c :
  (forall r', c <> ClientThread.Signal r') -> signals r [c] = 0%nat.
Proof. intros Hc. destruct c as [?|?|r']; try done. by destruct (Hc r'). Qed.

Lemma signals_one r r' :
  signals r [ClientThread.Signal r'] =
  match r, r' with Inbound, Inbound | Outbound, Outbound => 1%nat | _, _ => 0%nat end.
Proof. by destruct r, r'. Qed.

Lemma running_or_not (s : status) : s = Running \/ s <> Running.
Proof. destruct s; eauto. Qed.

Section SentinelFacts.
Context `{Platform}.

Lemma running_scheduler_unsignalled w st :
  coordinator_inv w st ->
  Thread.status (ClientThread.scheduler w) <> Finished ->
  signals Inbound
    (take (ClientThread.pc w) (ClientThread.shutdown (ClientThread.num_tasks w))) = 0%nat.
Proof.
  intros [_ _ Hjoined _ _ _] Hrun.
  destruct (signals Inbound _) eqn:Hsig; [done|]. exfalso. apply Hrun.
  assert (ClientThread.status_of Scheduler w = Some Finished) as Hs.
  { apply Hjoined, signals_inbound_joined. lia. }
  cbn in Hs. congruence.
Qed.

Lemma running_executor_unsignalled w st k th :
  coordinator_inv w st ->
  ClientThread.executors w !! k = Some th ->
  Thread.status th <> Finished ->
  signals Outbound
    (take (ClientThread.pc w) (ClientThread.shutdown (ClientThread.num_tasks w))) = 0%nat.
Proof.
  intros [Hlen _ Hjoined _ _ _] Hth Hrun.
  destruct (signals Outbound _) eqn:Hsig; [done|]. exfalso. apply Hrun.
  assert (ClientThread.status_of (Executor (S k)) w = Some Finished) as Hs.
  { apply Hjoined, signals_outbound_joined; [lia|].
    rewrite <- Hlen. by eapply lookup_lt_Some. }
  cbn in Hs. rewrite Hth in Hs. cbn in Hs. congruence.
Qed.

Lemma sentinel_inv_step template a ws :
  client_inv ws -> flow_inv template ws ->
  sentinel_inv ws -> sentinel_inv (step a ws).
Proof.
  destruct ws as [w st].
  intros [[Hloc _ _ _ _ _ _ _] Hcoord] [Hexs Hcol _ _ _ _ _ _ _]
    [(ts & k & Hin & Hsin) Hdisp (us & j & Hout & Hsout) Hcoll].
  pose proof Hcoord as [Hlen _ _ _ _ _].
  cbn [fst snd] in *.
  destruct a as [t|b| | | |i o]; cbn [step].
  - (* Tick *) constructor; cbn [fst snd]; eauto.
  - (* Send *) constructor; cbn [fst snd]; eauto.
  - (* StepCoordinator *)
    destruct (ClientThread.step w st) as [w' st'] eqn:Hstep.
    apply coordinator_step_effect in Hstep as (Heff & Hn & _ & Hcm & Hem).
    pose proof (stopped_machines _ _ Hem) as Hstop.
    destruct Heff as [Hpc|c Hcall Hc Hpc|r Hcall Hpc Hfull|x Hcall Hpc];
      try rewrite Hlen in Hcall.
    + constructor; cbn [fst snd]; rewrite ?Hn, ?Hcm, ?Hstop, ?Hpc; eauto.
    + constructor; cbn [fst snd]; rewrite ?Hn, ?Hcm, ?Hstop, ?Hpc; eauto.
      * exists ts, k. split; [done|].
        rewrite (signals_next _ _ _ _ Hcall), signals_call by done. lia.
      * exists us, j. split; [done|].
        rewrite (signals_next _ _ _ _ Hcall), signals_call by done. lia.
    + constructor; cbn [fst snd]; rewrite ?Hn, ?Hcm, ?Hstop, ?Hpc;
        rewrite ?(signals_next _ _ _ _ Hcall), ?signals_one; destruct r; cbn.
      * exists ts, (S k). rewrite Hin, queued_snoc_sentinel. split; [done|]. lia.
      * exists ts, k. split; [done|]. lia.
      * by rewrite tasks_of_snoc, app_nil_r.
      * done.
      * exists us, j. split; [done|]. lia.
      * exists us, (S j). rewrite Hout, queued_snoc_sentinel. split; [done|]. lia.
      * done.
      * by rewrite tasks_of_snoc, app_nil_r.
    + apply lookup_ge_None in Hcall.
      constructor; cbn [fst snd]; rewrite ?Hn, ?Hcm, ?Hstop, ?Hpc; eauto.
      * exists ts, k. split; [done|]. rewrite take_ge by lia. by rewrite take_ge in Hsin.
      * exists us, j. split; [done|]. rewrite take_ge by lia. by rewrite take_ge in Hsout.
  - (* StepScheduler *)
    destruct (step_scheduler (ClientThread.scheduler w) st) as [th st'] eqn:Hstep.
    apply scheduler_step_effect in Hstep as [Heff Hidle]; [|done].
    destruct (running_or_not (Thread.status (ClientThread.scheduler w))) as [Hrun|Hrun].
    2: { destruct (Hidle Hrun) as [-> ->]. destruct w. constructor; cbn [fst snd]; eauto. }
    assert (signals Inbound
              (take (ClientThread.pc w) (ClientThread.shutdown (ClientThread.num_tasks w))) =
            0%nat) as Hzero.
    { apply (running_scheduler_unsignalled w st Hcoord). congruence. }
    destruct w as [n sch col exs pc err];
      cbn [ClientThread.scheduler ClientThread.executors ClientThread.collector
           ClientThread.pc ClientThread.num_tasks] in *.
    destruct Heff as [|b rest Hsch|x Hfull]; constructor; cbn; eauto.
    + exists (ts ++ [x]), 0%nat. assert (k = 0%nat) as -> by lia.
      rewrite Hin, queued_snoc_task. split; [done|]. lia.
    + lia.
  - (* StepCollector *)
    destruct (step_collector (ClientThread.collector w) st) as [th st'] eqn:Hstep.
    apply collector_step_effect in Hstep as (Heff & _ & _); [|done].
    destruct w as [n sch col exs pc err];
      cbn [ClientThread.scheduler ClientThread.executors ClientThread.collector
           ClientThread.pc ClientThread.num_tasks] in *.
    destruct Heff as [Hs|x rest Hitems Hs Hs'|rest Hitems Hs Hs'|b Hs];
      constructor; cbn; rewrite ?Hs, ?Hs'; eauto; try lia.
    + rewrite Hitems in Hout. symmetry in Hout.
      apply queued_task in Hout as (us' & -> & ->).
      exists us', j. split; [done|]. lia.
    + rewrite Hitems in Hout. symmetry in Hout.
      apply queued_sentinel in Hout as (-> & j' & -> & ->).
      exists [], j'. split; [done|]. lia.
    + intros _. rewrite Hitems in Hout. symmetry in Hout.
      apply queued_sentinel in Hout as (-> & j' & -> & ->).
      apply tasks_of_queued.
  - (* StepExecutor *)
    destruct (ClientThread.executors w !! i) as [th|] eqn:Hth;
      [|constructor; cbn [fst snd]; eauto].
    destruct (step_executor o th st) as [th' st'] eqn:Hstep.
    apply (executor_step_effect template) in Hstep as (_ & Heff & Hidle);
      [|by eapply (Forall_lookup_1 _ _ _ _ Hexs)].
    destruct (running_or_not (Thread.status th)) as [Hrun|Hrun].
    2: { destruct (Hidle Hrun) as [-> ->]. rewrite list_insert_id by done.
         destruct w. constructor; cbn [fst snd]; eauto. }
    assert (signals Outbound
              (take (ClientThread.pc w) (ClientThread.shutdown (ClientThread.num_tasks w))) =
            0%nat) as Hzero.
    { apply (running_executor_unsignalled w st i th Hcoord Hth). congruence. }
    destruct w as [n sch col exs pc err];
      cbn [ClientThread.scheduler ClientThread.executors ClientThread.collector
           ClientThread.pc ClientThread.num_tasks] in *.
    destruct (insert_middle exs i th th' Hth) as (l1 & l2 & -> & ->).
    rewrite stopped_middle in Hsin, Hdisp.
    destruct Heff as [Hfly Hrun' Hchild Hstop
                     |e x rest Hitems Hfly Hfly' _ _ Hchild Hchild' Hstop Hstop'
                     |e rest Hitems Hfly Hfly' _ _ Hchild Hchild' Hstop Hstop'
                     |e x x' Hfly Hfly' Hjob _ _ Hchild Hchild' Hstop Hstop'
                     |e s x x' Hfly Hfly' Hjob _ _ Hchild Hchild' Hstop Hstop'
                     |e x Hfull Hfly Hfly' _ _ Hr Hexit Hend Hchild Hchild' Hstop Hstop'];
      constructor; cbn; rewrite ?stopped_middle, ?Hstop'; rewrite ?Hstop in *; eauto.
    + (* a task is taken *)
      rewrite Hitems in Hin. symmetry in Hin.
      apply queued_task in Hin as (ts' & -> & ->). exists ts', k. split; [done|]. lia.
    + intros Hpos. rewrite Hitems, tasks_of_cons in Hdisp. by specialize (Hdisp Hpos).
    + (* a sentinel is taken *)
      rewrite Hitems in Hin. symmetry in Hin.
      apply queued_sentinel in Hin as (-> & k' & -> & ->).
      exists [], k'. split; [done|]. lia.
    + intros _. rewrite Hitems in Hin. symmetry in Hin.
      apply queued_sentinel in Hin as (-> & k' & -> & ->). apply tasks_of_queued.
    + (* a task is put on outbound *)
      rewrite Hzero in Hsout |- *.
      exists (us ++ [x]), 0%nat. assert (j = 0%nat) as -> by lia.
      rewrite Hout, queued_snoc_task. split; [done|]. lia.
    + rewrite Hzero in Hsout. lia.
Qed.

Lemma sentinel_inv_init n bundlesize bundlewait template t0 :
  sentinel_inv (ClientThread.init n bundlesize bundlewait template t0).
Proof.
  assert (stopped
            (map (fun count => Thread.new (TaskExecutor.init (count + 1) Inbound Outbound template))
               (seq 0 n)) = 0%nat) as Hstop.
  { unfold stopped. induction (seq 0 n) as [|count l IH]; [done|]. done. }
  constructor; cbn [fst snd ClientThread.init ClientThread.executors ClientThread.pc
                    ClientThread.collector Thread.machine Thread.new
                    Store.inbound Store.outbound Queue.items Queue.new];
    rewrite ?Hstop; try lia.
  - by exists [], 0%nat.
  - by exists [], 0%nat.
  - done.
Qed.

Lemma sentinel_inv_run n bundlesize bundlewait template t0 schedule :
  sentinel_inv (run schedule (ClientThread.init n bundlesize bundlewait template t0)).
Proof.
  assert (forall ws, pipeline_inv template bundlesize ws -> sentinel_inv ws ->
                     pipeline_inv template bundlesize (run schedule ws) /\
                     sentinel_inv (run schedule ws)) as Hrun.
  { induction schedule as [|a schedule IH]; intros ws Hinv Hs; [done|].
    cbn [run fold_left]. destruct Hinv as (Hc & Hf & Hk). apply IH.
    - split; [by apply client_inv_step|].
      split; [by apply flow_inv_step|by eapply collector_inv_step].
    - by eapply sentinel_inv_step. }
  apply Hrun.
  - split; [apply client_inv_init|].
    split; [apply flow_inv_init|apply collector_inv_init].
  - apply sentinel_inv_init.
Qed.

End SentinelFacts.

(** ** The properties of every run *)

Section PipelineProperties.
Context `{Platform}.

(** X1: the executors take the tasks from [inbound] in the order in which the
    server sent them: what they have taken so far, followed by what waits
    on [inbound] and by what the scheduler still holds, is the content of
    the bundles received, task by task and in order. *)
Theorem dispatch_in_server_order n bundlesize bundlewait template t0 schedule :
  let ws := run schedule (ClientThread.init n bundlesize bundlewait template t0) in
  taken (Store.log (snd ws)) ++
  tasks_of (Queue.items (Store.inbound (snd ws))) ++
  holding (Thread.machine (ClientThread.scheduler (fst ws))) =
  concat (map (map unpack) (bundles (Store.log (snd ws)))).
Proof.
  intros ws.
  destruct (pipeline_inv_run n bundlesize bundlewait template t0 schedule)
    as ([[_ _ _ Hfwd _ _ _ _] _] & [_ _ Hin _ _ _ _ _ _] & _).
  fold ws in Hfwd, Hin. by rewrite app_assoc, Hin.
Qed.

(** X2: between [inbound] and [outbound] a task is neither lost nor run twice.
    The tasks taken from [inbound] are, up to order and by id and argument
    string, those put on [outbound] together with those the executors hold
    at the moment; and the child processes created are, one for one, for
    the tasks put on [outbound] and those whose child the executors have
    created and which they still hold. *)
Theorem executors_keep_every_task n bundlesize bundlewait template t0 schedule :
  let ws := run schedule (ClientThread.init n bundlesize bundlewait template t0) in
  map job (taken (Store.log (snd ws))) ≡ₚ
    map job (returned (Store.log (snd ws))) ++
    map job (flying (ClientThread.executors (fst ws))) /\
  map job_of (spawned (Store.log (snd ws))) ≡ₚ
    map job (returned (Store.log (snd ws))) ++
    map job (underway (ClientThread.executors (fst ws))).
Proof.
  intros ws.
  by destruct (pipeline_inv_run n bundlesize bundlewait template t0 schedule)
    as (_ & [_ _ _ _ Hjobs _ _ Hruns _] & _).
Qed.

(** X3: every task put on [outbound] carries the command rendered from the
    client's template and the task's own argument string, the host name of
    the client, a start time, an exit status and a completion time.  Every
    child process was created with that command line, and with the id and
    the argument string of a task taken from [inbound] as [TASK_ID] and
    [TASK_ARGS]. *)
Theorem executors_fill_in_the_task n bundlesize bundlewait template t0 schedule :
  let ws := run schedule (ClientThread.init n bundlesize bundlewait template t0) in
  Forall (fun x =>
            Task.command x = Some (replace marker (Task.args x) template) /\
            Task.client_host x = Some HOSTNAME /\
            is_Some (Task.start_time x) /\
            is_Some (Task.exit_status x) /\
            is_Some (Task.completion_time x))
    (returned (Store.log (snd ws))) /\
  Forall (fun '(command, task_id, task_args) =>
            command = replace marker task_args template /\
            exists x, x ∈ taken (Store.log (snd ws)) /\
                      Task.id x = task_id /\ Task.args x = task_args)
    (spawned (Store.log (snd ws))).
Proof.
  intros ws.
  destruct (pipeline_inv_run n bundlesize bundlewait template t0 schedule)
    as (_ & [_ _ _ _ _ Hret Hsp _ _] & _).
  fold ws in Hret, Hsp. split.
  - eapply Forall_impl; [done|]. cbn.
    intros x ((Hcmd & Hhost & Hstart) & Hexit & Hend).
    repeat split; try done; by apply not_eq_None_Some.
  - eapply Forall_impl; [done|]. intros [[c i] a] [Hc Hj]. split; [done|].
    apply list_elem_of_fmap in Hj as (x & [= -> ->] & Hx). by exists x.
Qed.


(** X5: the server gets the finished tasks in the order in which the executors
    put them on [outbound], each once: the bundles put on [completed], one
    after the other, followed by what the collector holds and by what waits
    on [outbound], are the packed tasks put on [outbound] so far. *)
Theorem completed_in_order n bundlesize bundlewait template t0 schedule :
  let ws := run schedule (ClientThread.init n bundlesize bundlewait template t0) in
  concat (QueueClient.completed (Store.client (snd ws))) ++
  map pack (ClientCollector.tasks (Thread.machine (ClientThread.collector (fst ws)))) ++
  map pack (tasks_of (Queue.items (Store.outbound (snd ws)))) =
  map pack (returned (Store.log (snd ws))).
Proof.
  intros ws.
  destruct (pipeline_inv_run n bundlesize bundlewait template t0 schedule)
    as (_ & [_ _ _ Hout _ _ _ _ _] & [_ _ _ _ Hcomp _]).
  fold ws in Hout, Hcomp. by rewrite <- Hout, map_app, app_assoc, Hcomp.
Qed.

(** X6: no bundle put on [completed] is empty, and none has more tasks than the
    bundle size the client was created with (one task, for a bundle size
    below one); between two rounds the collector holds fewer tasks than
    that. *)
Theorem bundle_sizes_bounded n bundlesize bundlewait template t0 schedule :
  let ws := run schedule (ClientThread.init n bundlesize bundlewait template t0) in
  let m := Thread.machine (ClientThread.collector (fst ws)) in
  Forall (fun b => 1 <= Z.of_nat (length b) <= Z.max bundlesize 1)
    (QueueClient.completed (Store.client (snd ws))) /\
  Z.of_nat (length (ClientCollector.tasks m)) <= Z.max bundlesize 1 /\
  (ClientCollector.state m = CollectorState.GET_LOCAL \/
   ClientCollector.state m = CollectorState.FINALIZE \/
   ClientCollector.state m = CollectorState.HALT ->
   Z.of_nat (length (ClientCollector.tasks m)) < Z.max bundlesize 1).
Proof.
  intros ws m.
  destruct (pipeline_inv_run n bundlesize bundlewait template t0 schedule)
    as (_ & _ & [_ _ _ Hpend _ Hsizes]).
  fold ws in Hpend, Hsizes. fold m in Hpend. unfold capacity in *.
  split; [done|]. split.
  - destruct (ClientCollector.state m); try lia. rewrite Hpend. cbn. lia.
  - intros [Hs|[Hs|Hs]]; by rewrite Hs in Hpend.
Qed.

(** X7: in a local queue no task waits behind a sentinel.  The coordinator puts
    at most one sentinel per executor on [inbound] and at most one on
    [outbound]; an executor that has taken a sentinel takes nothing more. *)
Theorem sentinels_follow_tasks n bundlesize bundlewait template t0 schedule :
  let ws := run schedule (ClientThread.init n bundlesize bundlewait template t0) in
  (exists ts k,
     Queue.items (Store.inbound (snd ws)) = map Some ts ++ repeat None k /\
     (k + stopped (ClientThread.executors (fst ws)) <= n)%nat) /\
  (exists ts k,
     Queue.items (Store.outbound (snd ws)) = map Some ts ++ repeat None k /\
     (k + collector_stopped (Thread.machine (ClientThread.collector (fst ws))) <= 1)%nat).
Proof.
  intros ws.
  destruct (sentinel_inv_run n bundlesize bundlewait template t0 schedule)
    as [(ts & k & Hin & Hsin) _ (us & j & Hout & Hsout) _].
  pose proof (run_num_tasks schedule
                (ClientThread.init n bundlesize bundlewait template t0)) as Hn.
  fold ws in Hin, Hsin, Hout, Hsout, Hn. cbn in Hn. rewrite Hn in Hsin, Hsout.
  split.
  - exists ts, k. split; [done|]. rewrite Hsin.
    etransitivity; [apply signals_take|].
    unfold ClientThread.shutdown, ClientThread.start_threads, ClientThread.wait_scheduler,
      ClientThread.wait_executors, ClientThread.wait_collector.
    rewrite !signals_app, !signals_repeat.
    rewrite (signals_none _ ClientThread.Start), (signals_none _ ClientThread.Join) by done.
    unfold signals. cbn. lia.
  - exists us, j. split; [done|]. rewrite Hsout.
    etransitivity; [apply signals_take|].
    unfold ClientThread.shutdown, ClientThread.start_threads, ClientThread.wait_scheduler,
      ClientThread.wait_executors, ClientThread.wait_collector.
    rewrite !signals_app, !signals_repeat.
    rewrite (signals_none _ ClientThread.Start), (signals_none _ ClientThread.Join) by done.
    unfold signals. cbn. lia.
Qed.

End PipelineProperties.

(** ** After a complete shutdown *)

Section AtPublication.
Context `{Platform}.

Lemma signals_shutdown n :
  signals Inbound (ClientThread.shutdown n) = n /\
  signals Outbound (ClientThread.shutdown n) = 1%nat.
Proof.
  unfold ClientThread.shutdown, ClientThread.start_threads, ClientThread.wait_scheduler,
    ClientThread.wait_executors, ClientThread.wait_collector.
  rewrite !signals_app, !signals_repeat.
  rewrite !(signals_none _ ClientThread.Start), !(signals_none _ ClientThread.Join) by done.
  unfold signals. cbn. lia.
Qed.

(** Once the terminal id is out, every thread has finished in its [HALT]
    state and the coordinator is past its last call. *)
Lemma halted_at_publication w st :
  client_inv (w, st) ->
  published st <> [] ->
  (length (ClientThread.shutdown (ClientThread.num_tasks w)) < ClientThread.pc w)%nat /\
  Thread.status (ClientThread.scheduler w) = Finished /\
  ClientScheduler.state (Thread.machine (ClientThread.scheduler w)) = SchedulerState.HALT /\
  Forall (fun th => Thread.status th = Finished /\
                    TaskExecutor.state (Thread.machine th) = TaskState.HALT)
    (ClientThread.executors w) /\
  Thread.status (ClientThread.collector w) = Finished /\
  ClientCollector.state (Thread.machine (ClientThread.collector w)) = CollectorState.HALT.
Proof.
  intros [Hsched Hcoord] Hne. cbn [fst snd] in *.
  pose proof Hcoord as [Hlen _ Hjoined Hpub Hcol Hexe].
  assert (forall who,
            ClientThread.Join who ∈ ClientThread.shutdown (ClientThread.num_tasks w) ->
            ClientThread.status_of who w = Some Finished) as Hall.
  { intros who Hin. by apply Hjoined, (published_after_shutdown w st). }
  pose proof (Hall _ (join_scheduler_in_shutdown _)) as Hs.
  pose proof (Hall _ (join_collector_in_shutdown _)) as Hc.
  cbn in Hs, Hc. injection Hs as Hs. injection Hc as Hc.
  repeat split; try done.
  - unfold published in Hne.
    destruct (QueueClient.terminator (Store.client st)) as [|x [|]]; try done.
    by destruct Hpub.
  - destruct Hsched as [_ _ _ _ _ _ Hstatus _]. by rewrite Hs in Hstatus.
  - apply Forall_lookup_2. intros k th Hth.
    assert (Thread.status th = Finished) as Hfin.
    { pose proof (lookup_lt_Some _ _ _ Hth) as Hk. rewrite Hlen in Hk.
      pose proof (Hall _ (join_executor_in_shutdown _ k Hk)) as He.
      cbn in He. rewrite Hth in He. by injection He. }
    split; [done|]. apply Hexe; [|done]. by eapply list_elem_of_lookup_2.
  - by apply Hcol.
Qed.

Lemma all_halted exs :
  Forall (fun th => Thread.status th = Finished /\
                    TaskExecutor.state (Thread.machine th) = TaskState.HALT) exs ->
  stopped exs = length exs /\ flying exs = [] /\ underway exs = [] /\
  children exs = 0%nat.
Proof.
  unfold stopped, flying, underway, children.
  induction 1 as [|th exs [_ Hhalt] _ (IHs & IHf & IHu & IHc)]; [done|].
  cbn. unfold has_stopped at 1, inflight at 1, started at 1, has_child at 1.
  rewrite Hhalt, IHs, IHf, IHu, IHc. done.
Qed.

Lemma queued_no_tasks ts k : tasks_of (queued ts k) = [] -> queued ts k = repeat None k.
Proof. rewrite tasks_of_queued. by intros ->. Qed.

(** X8: after a complete shutdown with at least one executor, every task the
    server sent has been run, once: the tasks put on [outbound], and the
    child processes created, are one for one the tasks of the bundles
    received; every child has been waited for; and [inbound] is empty. *)
Theorem every_task_runs_once n bundlesize bundlewait template t0 schedule :
  let ws := run schedule (ClientThread.init n bundlesize bundlewait template t0) in
  let sent := concat (map (map unpack) (bundles (Store.log (snd ws)))) in
  published (snd ws) <> [] ->
  (0 < n)%nat ->
  map job (returned (Store.log (snd ws))) ≡ₚ map job sent /\
  map job_of (spawned (Store.log (snd ws))) ≡ₚ map job sent /\
  length (exited (Store.log (snd ws))) = length (spawned (Store.log (snd ws))) /\
  Queue.items (Store.inbound (snd ws)) = [].
Proof.
  intros ws sent Hpub Hn.
  destruct (pipeline_inv_run n bundlesize bundlewait template t0 schedule)
    as (Hclient & Hflow & _).
  pose proof (sentinel_inv_run n bundlesize bundlewait template t0 schedule) as Hsent.
  pose proof (run_num_tasks schedule
                (ClientThread.init n bundlesize bundlewait template t0)) as Hnum.
  subst sent. fold ws in Hclient, Hflow, Hsent, Hnum. cbn in Hnum.
  destruct ws as [w st]. cbn [fst snd] in *.
  destruct (halted_at_publication w st Hclient Hpub)
    as (Hpc & _ & Hhalt & Hexs & _ & _).
  destruct Hclient as [[_ _ _ Hfwd Htasks _ _ _] [Hlen _ _ _ _ _]].
  destruct Hflow as [_ _ Hin _ Hjobs _ _ Hruns Hch].
  destruct Hsent as [(ts & k & Hitems & Hsig) Hdisp _ _].
  cbn [fst snd] in *.
  destruct (all_halted _ Hexs) as (Hstop & Hfly & Hund & Hchild).
  rewrite Hnum in Hlen, Hsig, Hpc. rewrite Hstop, Hlen in Hsig, Hdisp.
  rewrite take_ge, (proj1 (signals_shutdown n)) in Hsig by lia.
  assert (k = 0%nat) as -> by lia.
  specialize (Hdisp Hn). rewrite Hdisp, app_nil_r in Hin.
  unfold holding in Hfwd. rewrite Hhalt in Hfwd, Htasks. rewrite Htasks, app_nil_r in Hfwd.
  rewrite Hfly, app_nil_r, Hin, Hfwd in Hjobs.
  rewrite Hund, app_nil_r in Hruns.
  split; [done|]. split; [by rewrite Hruns|]. split.
  - rewrite Hch, Hchild. lia.
  - rewrite Hitems in Hdisp |- *. by apply queued_no_tasks in Hdisp.
Qed.

(** X9: after a complete shutdown the server has, on [completed] and in the
    order in which the executors put them on [outbound], every finished
    task but those the collector still held when it took its sentinel:
    fewer than the bundle size, and none for a bundle size of one or
    less. [outbound] is empty. *)
Theorem results_reach_the_server n bundlesize bundlewait template t0 schedule :
  let ws := run schedule (ClientThread.init n bundlesize bundlewait template t0) in
  let held := ClientCollector.tasks (Thread.machine (ClientThread.collector (fst ws))) in
  published (snd ws) <> [] ->
  concat (QueueClient.completed (Store.client (snd ws))) ++ map pack held =
    map pack (returned (Store.log (snd ws))) /\
  Z.of_nat (length held) < Z.max bundlesize 1 /\
  (bundlesize <= 1 ->
   concat (QueueClient.completed (Store.client (snd ws))) =
     map pack (returned (Store.log (snd ws)))) /\
  Queue.items (Store.outbound (snd ws)) = [].
Proof.
  intros ws held Hpub.
  destruct (pipeline_inv_run n bundlesize bundlewait template t0 schedule)
    as (Hclient & Hflow & Hcoll).
  pose proof (sentinel_inv_run n bundlesize bundlewait template t0 schedule) as Hsent.
  pose proof (run_num_tasks schedule
                (ClientThread.init n bundlesize bundlewait template t0)) as Hnum.
  unfold collector_inv in Hcoll.
  fold ws in Hclient, Hflow, Hsent, Hnum, Hcoll. fold held in Hcoll. cbn in Hnum.
  destruct ws as [w st]. cbn [fst snd] in *.
  destruct (halted_at_publication w st Hclient Hpub)
    as (Hpc & _ & _ & _ & _ & Hhalt).
  destruct Hflow as [_ _ _ Hout _ _ _ _ _].
  destruct Hcoll as [_ _ _ Hpend Hcomp _].
  destruct Hsent as [_ _ (us & j & Hitems & Hsig) Hdone].
  cbn [fst snd] in *. fold held in Hpend, Hcomp.
  unfold collector_stopped in Hsig, Hdone. rewrite Hhalt in Hpend, Hsig, Hdone.
  rewrite Hnum in Hsig, Hpc.
  rewrite take_ge, (proj2 (signals_shutdown n)) in Hsig by lia.
  assert (j = 0%nat) as -> by lia.
  specialize (Hdone ltac:(lia)). rewrite Hdone, app_nil_r in Hout.
  rewrite Hout in Hcomp. unfold capacity in Hpend.
  split; [done|]. split; [done|]. split.
  - intros Hsize. assert (held = []) as Hnil by (destruct held; [done|cbn in Hpend; lia]).
    by rewrite Hnil, app_nil_r in Hcomp.
  - rewrite Hitems in Hdone |- *. by apply queued_no_tasks in Hdone.
Qed.

End AtPublication.

(** ** The ends of the scheduler's input *)

Section SchedulerEdges.
Context `{Platform}.

(** X10: an empty bundle ends the scheduler: [unpack_bundle] raises [IndexError]
    on it.  It is the last bundle the client reads, the tasks of the
    bundles before it are all put on [inbound], and no terminal id is ever
    published. *)
Theorem empty_bundle_ends_scheduler n bundlesize bundlewait template t0 schedule :
  let ws := run schedule (ClientThread.init n bundlesize bundlewait template t0) in
  [] ∈ bundles (Store.log (snd ws)) ->
  last (received (Store.log (snd ws))) = Some (Some []) /\
  Thread.status (ClientThread.scheduler (fst (step StepScheduler ws))) = Crashed IndexError /\
  forwarded (Store.log (snd ws)) =
    concat (map (map unpack) (bundles (Store.log (snd ws)))) /\
  published (snd ws) = [].
Proof.
  intros ws Hempty.
  destruct (pipeline_inv_run n bundlesize bundlewait template t0 schedule)
    as (Hclient & _ & _).
  fold ws in Hclient. destruct ws as [w st]. cbn [fst snd] in *.
  pose proof Hclient as [[Hloc Hrec (ds & Hds & Hne & Hfid) Hfwd Htasks Hb Hstatus _] _].
  cbn [fst snd] in *.
  assert (ClientScheduler.state (Thread.machine (ClientThread.scheduler w)) =
            SchedulerState.UNPACK /\
          ClientScheduler.bundle (Thread.machine (ClientThread.scheduler w)) = Some [])
    as [Hstate Hbundle].
  { rewrite Hds, elem_of_app in Hempty. destruct Hempty as [Hin|Hin].
    - by eapply Forall_forall in Hne.
    - unfold pending in Hin.
      destruct (ClientScheduler.state _); try (by apply elem_of_nil in Hin).
      destruct (ClientScheduler.bundle _); [|by apply elem_of_nil in Hin].
      by apply list_elem_of_singleton in Hin as <-. }
  unfold pending, holding in *. rewrite Hstate, Hbundle in *.
  split; [|split; [|split]].
  - rewrite Hrec, Hds, map_app, app_nil_r. cbn. by rewrite last_snoc.
  - cbn [step].
    destruct (ClientThread.scheduler w) as [status [loc bundle task tasks fid state]] eqn:Hs.
    cbn in Hstate, Hbundle, Hstatus, Htasks. subst state bundle tasks.
    destruct status; try done. destruct Hstatus as [-> _]. by destruct w.
  - by rewrite <- Hfwd, app_nil_r.
  - destruct (published st) eqn:Hpub; [done|]. exfalso.
    destruct (halted_at_publication w st Hclient) as (_ & _ & Hhalt & _).
    { by rewrite Hpub. }
    congruence.
Qed.

(** X11: the disconnect sentinel is the last thing the scheduler reads from
    [scheduled]: what the server sends after it is never read. *)
Theorem disconnect_is_read_last n bundlesize bundlewait template t0 schedule :
  let ws := run schedule (ClientThread.init n bundlesize bundlewait template t0) in
  None ∈ received (Store.log (snd ws)) ->
  received (Store.log (snd ws)) = map Some (bundles (Store.log (snd ws))) ++ [None] /\
  forall b, received (Store.log (snd (step StepScheduler (step (Send b) ws)))) =
            received (Store.log (snd ws)).
Proof.
  intros ws Hnone.
  destruct (pipeline_inv_run n bundlesize bundlewait template t0 schedule)
    as (Hclient & _ & _).
  fold ws in Hclient. destruct ws as [w st]. cbn [fst snd] in *.
  pose proof Hclient as [[_ Hrec _ _ _ _ _ _] _]. cbn [fst snd] in *.
  assert (ClientScheduler.state (Thread.machine (ClientThread.scheduler w)) =
            SchedulerState.HALT) as Hhalt.
  { rewrite Hrec in Hnone. destruct (ClientScheduler.state _); try done;
      rewrite app_nil_r in Hnone; by apply list_elem_of_fmap in Hnone as (? & ? & _). }
  rewrite Hhalt in Hrec. split; [done|].
  intros b. cbn [step].
  destruct (ClientThread.scheduler w) as [status [loc bundle task tasks fid state]] eqn:Hs.
  cbn in Hhalt. subst state.
  by destruct status.
Qed.

End SchedulerEdges.

(** ** Templates with any number of markers *)

Lemma append_assoc (a b c : string) :
  String.append (String.append a b) c = String.append a (String.append b c).
Proof. induction a as [|ch a IH]; [done|]. cbn. by rewrite IH. Qed.

(** The first marker of a template is replaced and the rest of the
    template is treated in the same way; what was put in is not looked at
    again. *)
Lemma replace_first_marker a pre rest :
  occurs marker pre = false ->
  replace_from marker a 0 (String.append pre (String.append marker rest)) =
  String.append pre (String.append a (replace_from marker a 0 rest)).
Proof.
  intros Hpre. induction pre as [|c pre IH].
  - change (String.append EmptyString ?s) with s.
    change (String.append marker rest) with (String "{" (String "}" rest)).
    cbn [replace_from].
    assert (String.prefix marker (String "{" (String "}" rest)) = true) as ->.
    { apply prefix_marker. eauto. }
    change (String.length marker - 1)%nat with 1%nat. by cbn [replace_from].
  - cbn [occurs] in Hpre. apply orb_false_elim in Hpre as [Hp Ho].
    cbn [String.append replace_from].
    destruct (String.prefix marker (String c (String.append pre (String.append marker rest))))
      eqn:Hq.
    + exfalso. apply prefix_marker in Hq as [-> [s' Hs']].
      destruct pre as [|d pre]; [done|].
      cbn [String.append] in Hs'. injection Hs' as -> _.
      assert (String.prefix marker (String "{" (String "}" pre)) = true) as Ht.
      { apply prefix_marker. eauto. }
      congruence.
    + f_equal. by apply IH.
Qed.

Lemma replace_str_join a parts :
  parts <> [] ->
  Forall (fun p => occurs marker p = false) parts ->
  replace marker a (str_join marker parts) = str_join a parts.
Proof.
  intros Hne Hall.
  assert (forall s, replace marker a s = replace_from marker a 0 s) as -> by done.
  induction Hall as [|p parts Hp Hall IH]; [done|].
  destruct parts as [|q parts].
  - cbn. by apply replace_marker_free.
  - cbn [str_join]. rewrite replace_first_marker by done.
    do 2 f_equal. by apply IH.
Qed.

Section Rendering.
Context `{Platform}.

(** X12: whatever the number of markers in the template, [start_task] replaces
    each of them by the task's raw argument string: for a template made of
    the marker-free pieces [parts] with one marker between each two, the
    command is the pieces with the arguments between each two.  With a
    single piece, the command is the template and the arguments are not
    used. *)
Theorem every_marker_is_replaced (m : TaskExecutor.t) (st : Store.t) (o : os) x parts :
  TaskExecutor.task m = Some x ->
  parts <> [] ->
  Forall (fun p => occurs marker p = false) parts ->
  TaskExecutor.template m = str_join marker parts ->
  popen_fails o = false ->
  exists m' st' x',
    TaskExecutor.start_task o (m, st) = Return TaskState.WAIT_TASK (m', st') /\
    TaskExecutor.task m' = Some x' /\
    Task.command x' = Some (str_join (Task.args x) parts) /\
    spawned (Store.log st') =
      spawned (Store.log st) ++ [(str_join (Task.args x) parts, Task.id x, Task.args x)].
Proof.
  intros Htask Hne Hparts Htpl Hpopen.
  destruct m as [id tpl inb outb task process state].
  destruct st as [[sch comp term] [ini inmax] [outi outmax] clk lg].
  destruct o as [fails waits], x as [xid xargs xcmd xstart xend xexit xhost].
  cbn [TaskExecutor.task TaskExecutor.template popen_fails] in Htask, Htpl, Hpopen.
  subst task fails.
  remember (TaskExecutor.start_task _ _) as r eqn:Hr. run_in Hr.
  rewrite Htpl, replace_str_join in Hr by done. subst r.
  eexists _, _, _. split; [done|]. cbn. split; [done|]. split; [done|].
  by rewrite spawned_snoc.
Qed.

End Rendering.

(** ** The local queues stay within their capacity *)

Section QueueBounds.
Context `{Platform}.

Lemma within_put q x :
  within q -> Queue.full q = false ->
  within (Queue.Build (Queue.items q ++ [x]) (Queue.maxsize q)).
Proof.
  unfold within, Queue.full. intros [Hmax Hlen] Hfull. cbn. split; [done|].
  intros Hpos. rewrite length_app. cbn.
  apply andb_false_iff in Hfull as [Hf|Hf]; [apply Z.ltb_ge in Hf|apply Z.leb_gt in Hf]; lia.
Qed.

Lemma within_get q x rest :
  within q -> Queue.items q = x :: rest ->
  within (Queue.Build rest (Queue.maxsize q)).
Proof.
  unfold within. intros [Hmax Hlen] Hitems. cbn. split; [done|].
  intros Hpos. specialize (Hlen Hpos). rewrite Hitems in Hlen. cbn in Hlen. lia.
Qed.

Lemma queue_inv_step template a ws :
  client_inv ws -> flow_inv template ws -> queue_inv ws -> queue_inv (step a ws).
Proof.
  destruct ws as [w st]. unfold queue_inv.
  intros [[Hloc _ _ _ _ _ _ _] _] [Hexs Hcol _ _ _ _ _ _ _] [Hin Hout].
  cbn [fst snd] in *.
  destruct a as [t|b| | | |k o]; cbn [step].
  - done.
  - done.
  - destruct (ClientThread.step w st) as [w' st'] eqn:Hstep.
    apply coordinator_step_effect in Hstep as (Heff & _).
    destruct Heff as [Hpc|c Hcall Hc Hpc|r Hcall Hpc Hfull|x Hcall Hpc]; try done.
    destruct r; cbn; split; try done; by apply within_put.
  - destruct (step_scheduler (ClientThread.scheduler w) st) as [th st'] eqn:Hstep.
    apply scheduler_step_effect in Hstep as [Heff _]; [|done].
    destruct Heff as [|b rest Hsch|x Hfull]; try done.
    cbn. split; [|done]. by apply within_put.
  - destruct (step_collector (ClientThread.collector w) st) as [th st'] eqn:Hstep.
    apply collector_step_effect in Hstep as (Heff & _ & _); [|done].
    destruct Heff as [Hs|x rest Hitems Hs Hs'|rest Hitems Hs Hs'|b Hs]; try done.
    all: cbn; split; [done|]; by eapply within_get.
  - destruct (ClientThread.executors w !! k) as [th|] eqn:Hth; [|done].
    destruct (step_executor o th st) as [th' st'] eqn:Hstep.
    apply (executor_step_effect template) in Hstep as (_ & Heff & _);
      [|by eapply (Forall_lookup_1 _ _ _ _ Hexs)].
    destruct Heff; try done; cbn.
    + split; [|done]. by eapply within_get.
    + split; [|done]. by eapply within_get.
    + split; [done|]. by apply within_put.
Qed.

(** X13: neither local queue ever holds more items, sentinels included, than
    its capacity, which is the default bundle size whatever bundle size the
    client was created with. *)
Theorem local_queues_stay_bounded n bundlesize bundlewait template t0 schedule :
  let ws := run schedule (ClientThread.init n bundlesize bundlewait template t0) in
  Queue.maxsize (Store.inbound (snd ws)) = DEFAULT_BUNDLESIZE /\
  Queue.maxsize (Store.outbound (snd ws)) = DEFAULT_BUNDLESIZE /\
  (0 < DEFAULT_BUNDLESIZE ->
   Z.of_nat (length (Queue.items (Store.inbound (snd ws)))) <= DEFAULT_BUNDLESIZE /\
   Z.of_nat (length (Queue.items (Store.outbound (snd ws)))) <= DEFAULT_BUNDLESIZE).
Proof.
  intros ws.
  assert (queue_inv ws) as [[Hi Hil] [Ho Hol]]; [|by auto].
  subst ws.
  assert (forall ws, pipeline_inv template bundlesize ws -> queue_inv ws ->
                     queue_inv (run schedule ws)) as Hrun.
  { induction schedule as [|a schedule IH]; intros ws Hinv Hq; [done|].
    cbn [run fold_left]. destruct Hinv as (Hc & Hf & Hk). apply IH.
    - split; [by apply client_inv_step|].
      split; [by apply flow_inv_step|by eapply collector_inv_step].
    - by eapply queue_inv_step. }
  apply Hrun.
  - split; [apply client_inv_init|].
    split; [apply flow_inv_init|apply collector_inv_init].
  - split; split; cbn; try done; lia.
Qed.

End QueueBounds.

(** ** Exceptions *)

Section Failures.
Context `{Platform}.

Lemma executor_step_crash template o th st th' st' e :
  step_executor o th st = (th', st') ->
  executor_holds template (Thread.machine th) ->
  Thread.status th' = Crashed e ->
  Thread.status th = Crashed e /\ th' = th \/
  e = SpawnError /\ TaskExecutor.state (Thread.machine th') = TaskState.START_TASK.
Proof.
  intros Hstep [Hin Hout Htpl Htask].
  destruct th as [status [id tpl inb outb task process state]].
  destruct st as [[sch comp term] [ini inmax] [outi outmax] clk lg].
  cbn in Hin, Hout, Htpl, Htask. subst inb outb tpl.
  destruct status; run_in Hstep;
    try (injection Hstep as <- <-; cbn; intros [= <-]; by left); try done.
  destruct state; run_in Hstep; cbn in Htask.
  - injection Hstep as <- <-. done.
  - break_in Hstep; injection Hstep as <- <-; done.
  - destruct task as [x|]; [|done].
    break_in Hstep; injection Hstep as <- <-; cbn; try done.
    intros [= <-]. by right.
  - destruct Htask as (x & -> & _ & Hproc).
    destruct process as [p|]; [|done].
    break_in Hstep; injection Hstep as <- <-; done.
  - destruct Htask as (x & -> & _).
    break_in Hstep; injection Hstep as <- <-; done.
  - injection Hstep as <- <-. done.
  - injection Hstep as <- <-. done.
Qed.

Lemma scheduler_step_crash th st th' st' e :
  step_scheduler th st = (th', st') ->
  scheduler_inv th (Store.log st) ->
  Thread.status th' = Crashed e ->
  Thread.status th = Crashed e /\ th' = th \/
  ClientScheduler.bundle (Thread.machine th') = Some [].
Proof.
  intros Hstep [_ _ _ _ Htasks Hbundle _ _].
  destruct th as [status [loc bundle task tasks fid state]].
  destruct st as [[sch comp term] [ini inmax] [outi outmax] clk lg].
  cbn in Htasks, Hbundle.
  destruct status; run_in Hstep;
    try (injection Hstep as <- <-; cbn; intros [= <-]; by left); try done.
  destruct state; run_in Hstep; break_in Hstep; injection Hstep as <- <-;
    cbn; try done.
  - intros _. right. f_equal.
    match goal with Hq : last _ = None |- _ => by apply last_None, fmap_nil_inv in Hq end.
  - by destruct Hbundle.
Qed.

Lemma collector_step_safe th st th' st' :
  step_collector th st = (th', st') ->
  (forall e, Thread.status th <> Crashed e) ->
  (ClientCollector.state (Thread.machine th) <> CollectorState.START ->
   ClientCollector.previous_send (Thread.machine th) <> None) ->
  (forall e, Thread.status th' <> Crashed e) /\
  (ClientCollector.state (Thread.machine th') <> CollectorState.START ->
   ClientCollector.previous_send (Thread.machine th') <> None).
Proof.
  intros Hstep Hok Hprev.
  destruct th as [status [loc tasks bundle size wait prev state]].
  destruct st as [[sch comp term] [ini inmax] [outi outmax] clk lg].
  cbn in Hok, Hprev.
  destruct status; run_in Hstep;
    try (injection Hstep as <- <-; done).
  destruct state; run_in Hstep; break_in Hstep; injection Hstep as <- <-;
    cbn; split; try done; try (intros _; by apply Hprev).
  exfalso. by apply Hprev.
Qed.

Lemma thread_start_crashed {Machine} (th : Thread.t Machine) e :
  Thread.status (Thread.start th) = Crashed e -> Thread.status th = Crashed e.
Proof. by destruct th as [[] m]. Qed.

Lemma failure_inv_error e w st :
  failure_inv (w, st) ->
  (e = IndexError /\ Thread.status (ClientThread.scheduler w) = Crashed IndexError \/
   e = SpawnError /\
     (exists k th, ClientThread.executors w !! k = Some th /\
                   Thread.status th = Crashed SpawnError) \/
   e = AttributeError /\
     ClientThread.pc w = length (ClientThread.shutdown (ClientThread.num_tasks w)) /\
     ClientScheduler.final_task_id (Thread.machine (ClientThread.scheduler w)) = None) ->
  failure_inv (ClientThread.set_error e w, st).
Proof.
  intros [Hsch Hexs Hcol Herr] He. destruct w. constructor; cbn in *; try done.
  by intros e' [= <-].
Qed.

Lemma coordinator_step_failure w st :
  client_inv (w, st) -> failure_inv (w, st) -> failure_inv (ClientThread.step w st).
Proof.
  intros [Hsched [Hlen _ _ _ _ _]] Hinv.
  pose proof Hinv as [Hsch Hexs [Hcol Hprev] Herr].
  cbn [fst snd] in *.
  unfold ClientThread.step.
  destruct (ClientThread.error w) eqn:Hnone; [done|].
  rewrite Hlen.
  destruct (ClientThread.shutdown (ClientThread.num_tasks w) !! ClientThread.pc w)
    as [[who|who|r]|] eqn:Hcall.
  - (* Start *)
    destruct w as [n sch col exs pc err]. cbn in *. subst err.
    destruct who as [| | |[|k]]; constructor; cbn; try done.
    + intros e He. rewrite thread_start_machine.
      by eapply Hsch, thread_start_crashed.
    + split; [|by rewrite thread_start_machine].
      intros e He. apply thread_start_crashed in He. by destruct (Hcol e).
    + apply Forall_alter; [done|]. intros th _ Hth e He.
      rewrite thread_start_machine. by apply Hth, thread_start_crashed.
  - (* Join *)
    unfold ClientThread.join.
    destruct (ClientThread.status_of who w) as [[| | |e]|] eqn:Hstatus; try done.
    + destruct w. constructor; cbn in *; try done. by subst.
    + apply failure_inv_error; [done|].
      destruct who as [| | |[|k]]; cbn in Hstatus; try done.
      * left. injection Hstatus as Hs.
        destruct Hsched as [_ _ _ _ _ _ Hst _]. cbn in Hst. rewrite Hs in Hst.
        destruct Hst as [-> _]. done.
      * injection Hstatus as Hs. by destruct (Hcol e).
      * destruct (ClientThread.executors w !! k) as [th|] eqn:Hth; [|done].
        injection Hstatus as Hs.
        destruct (Forall_lookup_1 _ _ _ _ Hexs Hth e Hs) as [-> _].
        right. left. split; [done|]. by exists k, th.
  - (* Signal *)
    unfold ClientThread.signal.
    destruct (local_put _ _ _ _) as [[] ?|]; try done.
    destruct w. constructor; cbn in *; try done. by subst.
  - (* register_final_task *)
    destruct (Nat.eqb_spec (ClientThread.pc w)
                (length (ClientThread.shutdown (ClientThread.num_tasks w))))
      as [Hpc|Hpc]; [|done].
    unfold ClientThread.register_final_task.
    destruct (ClientScheduler.final_task_id _) as [final|] eqn:Hfinal.
    + destruct w. constructor; cbn in *; try done. by subst.
    + apply failure_inv_error; [done|]. right. right. done.
Qed.

Lemma failure_inv_step template a ws :
  client_inv ws -> flow_inv template ws -> failure_inv ws -> failure_inv (step a ws).
Proof.
  destruct ws as [w st]. intros Hclient Hflow Hinv.
  pose proof Hclient as [[Hloc _ _ _ _ _ Hss _] [_ _ Hjoined _ _ _]].
  pose proof Hflow as [Hholds _ _ _ _ _ _ _ _].
  pose proof Hinv as [Hsch Hexs [Hcol Hprev] Herr].
  pose proof Hclient as [Hsinv _].
  cbn [fst snd] in *.
  destruct a as [t|b| | | |k o]; cbn [step].
  - done.
  - done.
  - by apply coordinator_step_failure.
  - (* StepScheduler *)
    destruct (step_scheduler (ClientThread.scheduler w) st) as [th st'] eqn:Hstep.
    pose proof (fun e => scheduler_step_crash _ _ _ _ e Hstep Hsinv) as Hcrash.
    apply scheduler_step_effect in Hstep as [_ Hidle]; [|done].
    destruct w as [n sch col exs pc err]. constructor; cbn in *; try done.
    { intros e He. destruct (Hcrash e He) as [[Hs ->]|Hs]; [by eapply Hsch|done]. }
    intros e He. destruct (Herr e He) as [[-> Hs]|[Hs|(-> & Hpc & Hfid)]].
    + left. split; [done|]. destruct Hidle as [-> _]; [congruence|done].
    + by right; left.
    + right. right. split; [done|]. split; [done|].
      destruct Hidle as [-> _]; [|done].
      assert (Some (Thread.status sch) = Some Finished) as [= ->]; [|done].
      apply (Hjoined Scheduler). rewrite Hpc, take_ge by done.
      apply join_scheduler_in_shutdown.
  - (* StepCollector *)
    destruct (step_collector (ClientThread.collector w) st) as [th st'] eqn:Hstep.
    apply collector_step_safe in Hstep; [|done..].
    destruct w as [n sch col exs pc err]. by constructor.
  - (* StepExecutor *)
    destruct (ClientThread.executors w !! k) as [th|] eqn:Hth; [|done].
    destruct (step_executor o th st) as [th' st'] eqn:Hstep.
    pose proof (Forall_lookup_1 _ _ _ _ Hholds Hth) as Hh.
    pose proof (Forall_lookup_1 _ _ _ _ Hexs Hth) as Hc. cbn in Hh, Hc.
    pose proof (fun e => executor_step_crash template o th st th' st' e Hstep Hh) as Hcrash.
    destruct w as [n sch col exs pc err]. constructor; cbn in *; try done.
    + apply Forall_insert; [done|]. intros e He.
      destruct (Hcrash e He) as [[Hs ->]|Hs]; [by apply Hc|done].
    + intros e He. destruct (Herr e He) as [Hs|[[-> (k0 & th0 & Hk0 & Hs)]|Hs]];
        [by left| |by right; right].
      right. left. split; [done|].
      destruct (decide (k = k0)) as [->|Hne].
      * rewrite Hth in Hk0. injection Hk0 as <-. exists k0, th'.
        rewrite list_lookup_insert_eq by (by eapply lookup_lt_Some). split; [done|].
        apply (executor_step_effect template) in Hstep as (_ & _ & Hidle); [|done].
        destruct Hidle as [-> _]; [congruence|done].
      * exists k0, th0. by rewrite list_lookup_insert_ne.
Qed.

Lemma failure_inv_init n bundlesize bundlewait template t0 :
  failure_inv (ClientThread.init n bundlesize bundlewait template t0).
Proof.
  constructor; cbn; try done.
  apply Forall_fmap, Forall_forall. by intros count _.
Qed.

Lemma failure_inv_run n bundlesize bundlewait template t0 schedule :
  failure_inv (run schedule (ClientThread.init n bundlesize bundlewait template t0)).
Proof.
  assert (forall ws, pipeline_inv template bundlesize ws -> failure_inv ws ->
                     failure_inv (run schedule ws)) as Hrun.
  { induction schedule as [|a schedule IH]; intros ws Hinv Hq; [done|].
    cbn [run fold_left]. destruct Hinv as (Hc & Hf & Hk). apply IH.
    - split; [by apply client_inv_step|].
      split; [by apply flow_inv_step|by eapply collector_inv_step].
    - by eapply failure_inv_step. }
  apply Hrun.
  - split; [apply client_inv_init|].
    split; [apply flow_inv_init|apply collector_inv_init].
  - apply failure_inv_init.
Qed.

(** X14: the exceptions that the statements of [client.py] raise by
    themselves (the task codec and the connection to the server are taken
    not to fail), and where they end up.  The scheduler ends with an
    exception only on an empty bundle, with [IndexError]; an executor only
    when [Popen] raises, with the task in hand; the collector never.  The
    coordinator ends with the exception of the scheduler or of an executor,
    or with [AttributeError] when it is to register a final task and no
    bundle was ever received. *)
Theorem failures_are_accounted_for n bundlesize bundlewait template t0 schedule :
  let ws := run schedule (ClientThread.init n bundlesize bundlewait template t0) in
  (forall e, Thread.status (ClientThread.scheduler (fst ws)) = Crashed e ->
     e = IndexError /\ last (bundles (Store.log (snd ws))) = Some []) /\
  (forall th e, th ∈ ClientThread.executors (fst ws) -> Thread.status th = Crashed e ->
     e = SpawnError /\
     TaskExecutor.state (Thread.machine th) = TaskState.START_TASK /\
     is_Some (TaskExecutor.task (Thread.machine th))) /\
  (forall e, Thread.status (ClientThread.collector (fst ws)) <> Crashed e) /\
  (forall e, ClientThread.error (fst ws) = Some e ->
     e = IndexError /\ Thread.status (ClientThread.scheduler (fst ws)) = Crashed IndexError \/
     e = SpawnError /\
       (exists th, th ∈ ClientThread.executors (fst ws) /\
                   Thread.status th = Crashed SpawnError) \/
     e = AttributeError /\ bundles (Store.log (snd ws)) = [] /\
       Thread.status (ClientThread.scheduler (fst ws)) = Finished).
Proof.
  intros ws.
  destruct (pipeline_inv_run n bundlesize bundlewait template t0 schedule)
    as (Hclient & Hflow & _).
  pose proof (failure_inv_run n bundlesize bundlewait template t0 schedule) as Hfail.
  fold ws in Hclient, Hflow, Hfail. destruct ws as [w st].
  pose proof Hclient as [Hsched _].
  destruct Hflow as [Hholds _ _ _ _ _ _ _ _].
  destruct Hfail as [Hsch Hexs [Hcol _] Herr].
  cbn [fst snd] in *.
  split; [|split; [|split]].
  - intros e He.
    destruct Hsched as [_ _ (ds & Hds & _) _ _ _ Hstatus _].
    rewrite He in Hstatus. destruct Hstatus as [-> Hstate]. split; [done|].
    unfold pending in Hds. rewrite Hstate, (Hsch _ He) in Hds.
    by rewrite Hds, last_snoc.
  - intros th e Hin He.
    apply list_elem_of_lookup in Hin as [k Hk].
    destruct (Forall_lookup_1 _ _ _ _ Hexs Hk e He) as [-> Hstate].
    split; [done|]. split; [done|].
    destruct (Forall_lookup_1 _ _ _ _ Hholds Hk) as [_ _ _ Htask].
    rewrite Hstate in Htask. by apply not_eq_None_Some.
  - done.
  - intros e He.
    destruct (Herr e He) as [Hs|[[-> (k & th & Hk & Hs)]|(-> & Hpc & Hfid)]].
    + by left.
    + right. left. split; [done|]. exists th. split; [|done].
      by eapply list_elem_of_lookup_2.
    + right. right. split; [done|].
      destruct (ready_to_register w st Hclient) as (Hfin & Hne & Hid); [lia|].
      split; [|done]. rewrite Hfid in Hid.
      destruct (bundles (Store.log st)) as [|b bs] eqn:Hbs; [done|].
      destruct (terminal_id_last (b :: bs) Hne) as (? & ? & _ & _ & Ht); [done|].
      congruence.
Qed.

End Failures.

(** ** Attributes *)

Section Attributes.
Context `{Platform}.

(** X15: no attribute is read before it is assigned, and nothing is iterated
    that is [None]: the scheduler has a bundle when it unpacks and a task
    when it puts one on [inbound]; an executor has a task when it starts,
    waits for or returns one, and a child process when it waits; the
    collector has a [previous_send] whenever it checks its bundle. *)
Theorem attributes_are_assigned_before_use n bundlesize bundlewait template t0 schedule :
  let ws := run schedule (ClientThread.init n bundlesize bundlewait template t0) in
  let sch := Thread.machine (ClientThread.scheduler (fst ws)) in
  let col := Thread.machine (ClientThread.collector (fst ws)) in
  (ClientScheduler.state sch = SchedulerState.UNPACK -> is_Some (ClientScheduler.bundle sch)) /\
  (ClientScheduler.state sch = SchedulerState.PUT_LOCAL -> is_Some (ClientScheduler.task sch)) /\
  (forall th, th ∈ ClientThread.executors (fst ws) ->
     let m := Thread.machine th in
     (TaskExecutor.state m = TaskState.START_TASK \/
      TaskExecutor.state m = TaskState.WAIT_TASK \/
      TaskExecutor.state m = TaskState.PUT_LOCAL -> is_Some (TaskExecutor.task m)) /\
     (TaskExecutor.state m = TaskState.WAIT_TASK -> is_Some (TaskExecutor.process m))) /\
  (ClientCollector.state col <> CollectorState.START ->
   is_Some (ClientCollector.previous_send col)).
Proof.
  intros ws sch col.
  destruct (pipeline_inv_run n bundlesize bundlewait template t0 schedule)
    as (Hclient & Hflow & _).
  pose proof (failure_inv_run n bundlesize bundlewait template t0 schedule) as Hfail.
  fold ws in Hclient, Hflow, Hfail.
  destruct Hclient as [[_ _ _ _ Htasks Hbundle _ _] _].
  destruct Hflow as [Hholds _ _ _ _ _ _ _ _].
  destruct Hfail as [_ _ [_ Hprev] _].
  fold sch in Htasks, Hbundle. fold col in Hprev.
  split; [|split; [|split]].
  - intros Hs. by apply not_eq_None_Some, Hbundle.
  - intros Hs. rewrite Hs in Htasks. by apply not_eq_None_Some.
  - intros th Hin m. apply list_elem_of_lookup in Hin as [k Hk].
    destruct (Forall_lookup_1 _ _ _ _ Hholds Hk) as [_ _ _ Htask]. fold m in Htask.
    split.
    + intros [Hs|[Hs|Hs]]; rewrite Hs in Htask.
      * by apply not_eq_None_Some.
      * by destruct Htask as (x & -> & _).
      * by destruct Htask as (x & -> & _).
    + intros Hs. rewrite Hs in Htask. destruct Htask as (x & _ & _ & Hp).
      by apply not_eq_None_Some.
  - intros Hs. by apply not_eq_None_Some, Hprev.
Qed.

End Attributes.

(** ** Flushing by the clock *)

Section Due.
Context `{Platform}.






End Due.

Section IdleCollector.
Context `{Platform}.

(** X17: an idle collector flushes by the clock.  When [outbound] stays empty
    and the bundle wait has passed since [previous_send], the round
    [GET_LOCAL], [CHECK_BUNDLE], [PACK_BUNDLE], [PUT_REMOTE] puts the pending
    tasks on [completed] as one bundle and moves [previous_send] to now;
    with no task pending it sends nothing and leaves [previous_send] where
    it was, so that the next round packs again. *)
Theorem idle_collector_flushes_by_the_clock (m : ClientCollector.t) (st : Store.t) prev :
  ClientCollector.state m = CollectorState.GET_LOCAL ->
  ClientCollector.bundle m = [] ->
  ClientCollector.previous_send m = Some prev ->
  Queue.items (Store.local (ClientCollector.local m) st) = [] ->
  (inject_Z (ClientCollector.bundlewait m) <= total_seconds (Store.clock st - prev))%Q ->
  exists th1 th2 th3 m4 st4,
    step_collector (Thread.Build Running m) st = (th1, st) /\
    ClientCollector.state (Thread.machine th1) = CollectorState.CHECK_BUNDLE /\
    step_collector th1 st = (th2, st) /\
    ClientCollector.state (Thread.machine th2) = CollectorState.PACK_BUNDLE /\
    step_collector th2 st = (th3, st) /\
    ClientCollector.state (Thread.machine th3) = CollectorState.PUT_REMOTE /\
    step_collector th3 st = (Thread.Build Running m4, st4) /\
    ClientCollector.state m4 = CollectorState.GET_LOCAL /\
    ClientCollector.tasks m4 = [] /\
    match ClientCollector.tasks m with
    | [] => m4 = m /\ st4 = st
    | _ :: _ =>
        QueueClient.completed (Store.client st4) =
          QueueClient.completed (Store.client st) ++ [map pack (ClientCollector.tasks m)] /\
        ClientCollector.previous_send m4 = Some (Store.clock st)
    end.
Proof.
  intros Hstate Hbundle Hprev Hitems Hwait.
  destruct m as [loc tasks bundle size wait prev' state].
  destruct st as [[sch comp term] [ini inmax] [outi outmax] clk lg].
  cbn in Hprev, Hstate, Hbundle, Hwait. subst prev' state bundle.
  apply Qle_bool_iff in Hwait.
  destruct loc; cbn in Hitems; subst.
  all: destruct tasks as [|x tasks].
  all: do 5 eexists.
  all: split; [unfold step_collector, Thread.step; cbn; reflexivity|].
  all: split; [done|].
  all: split; [unfold step_collector, Thread.step; cbn; rewrite Hwait;
               destruct (_ <=? _); reflexivity|].
  all: split; [done|].
  all: split; [unfold step_collector, Thread.step; cbn; reflexivity|].
  all: split; [done|].
  all: split; [unfold step_collector, Thread.step; cbn; reflexivity|].
  all: cbn; done.
Qed.

End IdleCollector.

(** ** A single executor *)

Section SingleExecutor.
Context `{Platform}.

Lemma order_inv_step template a ws :
  (length (ClientThread.executors (fst ws)) <= 1)%nat ->
  client_inv ws -> flow_inv template ws ->
  order_inv ws -> order_inv (step a ws).
Proof.
  destruct ws as [w st]. unfold order_inv.
  intros Hone [[Hloc _ _ _ _ _ _ _] _] [Hexs Hcol _ _ _ _ _ _ _] Hjobs.
  cbn [fst snd] in *.
  destruct a as [t|b| | | |k o]; cbn [step].
  - done.
  - done.
  - destruct (ClientThread.step w st) as [w' st'] eqn:Hstep.
    apply coordinator_step_effect in Hstep as (Heff & _ & _ & _ & Hem).
    pose proof (flying_machines _ _ Hem) as Hfly. cbn [fst snd]. rewrite Hfly.
    destruct Heff as [Hpc|c Hcall Hc Hpc|r Hcall Hpc Hfull|x Hcall Hpc]; try done.
    all: try (destruct c as [who|who|r]; [| |by destruct (Hc r)]).
    all: try (simpl_log; done).
    all: by destruct r; simpl_log.
  - destruct (step_scheduler (ClientThread.scheduler w) st) as [th st'] eqn:Hstep.
    apply scheduler_step_effect in Hstep as [Heff _]; [|done].
    destruct w as [n sch col exs pc err]; cbn [fst snd ClientThread.executors] in *.
    destruct Heff; try done; by simpl_log.
  - destruct (step_collector (ClientThread.collector w) st) as [th st'] eqn:Hstep.
    apply collector_step_effect in Hstep as (Heff & _ & _); [|done].
    destruct w as [n sch col exs pc err]; cbn [fst snd ClientThread.executors] in *.
    destruct Heff; try done; by simpl_log.
  - destruct (ClientThread.executors w !! k) as [th|] eqn:Hth; [|done].
    destruct (step_executor o th st) as [th' st'] eqn:Hstep.
    apply (executor_step_effect template) in Hstep as (_ & Heff & _);
      [|by eapply (Forall_lookup_1 _ _ _ _ Hexs)].
    destruct w as [n sch col exs pc err]; cbn [fst snd ClientThread.executors] in *.
    destruct exs as [|th0 [|th1 exs]]; [done| |cbn in Hone; lia].
    destruct k as [|k]; [|done]. injection Hth as ->. cbn.
    unfold flying in *. cbn in *. rewrite app_nil_r in *.
    destruct Heff as [Hfly Hrun Hchild Hstop
                     |i x rest Hitems Hfly Hfly' Hrun Hrun' Hchild Hchild' Hstop Hstop'
                     |i rest Hitems Hfly Hfly' Hrun Hrun' Hchild Hchild' Hstop Hstop'
                     |i x x' Hfly Hfly' Hjob Hrun Hrun' Hchild Hchild' Hstop Hstop'
                     |i s x x' Hfly Hfly' Hjob Hrun Hrun' Hchild Hchild' Hstop Hstop'
                     |i x Hfull Hfly Hfly' Hrun Hrun' Hr Hexit Hend Hchild Hchild' Hstop Hstop'];
      simpl_log; rewrite ?Hfly' in *; rewrite ?Hfly in *; rewrite ?map_app; cbn in *.
    all: rewrite ?app_nil_r in *; try done.
    all: rewrite ?Hjob; by rewrite Hjobs.
Qed.

Lemma order_inv_run n bundlesize bundlewait template t0 schedule :
  (n <= 1)%nat ->
  order_inv (run schedule (ClientThread.init n bundlesize bundlewait template t0)).
Proof.
  intros Hone.
  assert (forall ws, (length (ClientThread.executors (fst ws)) <= 1)%nat ->
                     pipeline_inv template bundlesize ws -> order_inv ws ->
                     order_inv (run schedule ws)) as Hrun.
  { induction schedule as [|a schedule IH]; intros ws Hlen Hinv Hq; [done|].
    cbn [run fold_left]. destruct Hinv as (Hc & Hf & Hk). apply IH.
    - pose proof (client_inv_step a ws Hc) as [_ [Hlen' _ _ _ _ _]].
      destruct Hc as [_ [Hlen0 _ _ _ _ _]].
      rewrite Hlen', step_num_tasks, <- Hlen0. done.
    - split; [by apply client_inv_step|].
      split; [by apply flow_inv_step|by eapply collector_inv_step].
    - by eapply order_inv_step. }
  apply Hrun.
  - cbn. by rewrite length_map, length_seq.
  - split; [apply client_inv_init|].
    split; [apply flow_inv_init|apply collector_inv_init].
  - unfold order_inv. cbn. unfold flying.
    induction (seq 0 n) as [|count l IH]; [done|]. done.
Qed.

(** X18: with a single executor the pipeline keeps the server's order from end
    to end: the tasks put on [outbound], followed by the one the executor
    holds, by those waiting on [inbound] and by those the scheduler holds,
    are by id and argument string the tasks of the bundles received, in
    the order in which they were sent.  (With several executors they are
    so up to order only.) *)
Theorem single_executor_keeps_order bundlesize bundlewait template t0 schedule :
  let ws := run schedule (ClientThread.init 1 bundlesize bundlewait template t0) in
  map job (returned (Store.log (snd ws))) ++
  map job (flying (ClientThread.executors (fst ws))) ++
  map job (tasks_of (Queue.items (Store.inbound (snd ws)))) ++
  map job (holding (Thread.machine (ClientThread.scheduler (fst ws)))) =
  map job (concat (map (map unpack) (bundles (Store.log (snd ws))))).
Proof.
  intros ws.
  destruct (pipeline_inv_run 1 bundlesize bundlewait template t0 schedule)
    as ([[_ _ _ Hfwd _ _ _ _] _] & [_ _ Hin _ _ _ _ _ _] & _).
  pose proof (order_inv_run 1 bundlesize bundlewait template t0 schedule
                ltac:(lia)) as Horder.
  unfold order_inv in Horder. fold ws in Hfwd, Hin, Horder.
  rewrite <- Hfwd, <- Hin, !map_app, Horder. by rewrite <- !app_assoc.
Qed.

End SingleExecutor.

(** ** More concrete runs *)

Section MoreConcreteRuns.
Import Demo.

(** The run [one_task]: [t1] was received and has been run. *)
Lemma every_task_runs_once_witness :
  published (snd (run one_task client)) <> [] /\
  (0 < 1)%nat /\
  map job (returned (Store.log (snd (run one_task client)))) ≡ₚ
    map job (concat (map (map unpack) (bundles (Store.log (snd (run one_task client)))))).
Proof.
  assert (published (snd (run one_task client)) <> []) as Hpub by (vm_compute; discriminate).
  split; [exact Hpub|]. split; [lia|].
  exact (proj1 (every_task_runs_once 1 3 3600 "sh -c '{}'" 0 one_task Hpub ltac:(lia))).
Defined.

(** The run [one_task], with bundle size 3: the finished [t1] is still held
    by the collector and [completed] is empty. *)
Lemma results_reach_the_server_witness :
  published (snd (run one_task client)) <> [] /\
  concat (QueueClient.completed (Store.client (snd (run one_task client)))) ++
  map pack (ClientCollector.tasks
              (Thread.machine (ClientThread.collector (fst (run one_task client))))) =
  map pack (returned (Store.log (snd (run one_task client)))).
Proof.
  assert (published (snd (run one_task client)) <> []) as Hpub by (vm_compute; discriminate).
  split; [exact Hpub|].
  exact (proj1 (results_reach_the_server 1 3 3600 "sh -c '{}'" 0 one_task Hpub)).
Defined.

(** The run [empty_bundle]. *)
Lemma empty_bundle_ends_scheduler_witness :
  [] ∈ bundles (Store.log (snd (run empty_bundle client))) /\
  Thread.status (ClientThread.scheduler (fst (step StepScheduler (run empty_bundle client)))) =
    Crashed IndexError.
Proof.
  assert ([] ∈ bundles (Store.log (snd (run empty_bundle client)))) as Hin.
  { vm_compute. apply list_elem_of_here. }
  split; [exact Hin|].
  exact (proj1 (proj2
    (empty_bundle_ends_scheduler 1 3 3600 "sh -c '{}'" 0 empty_bundle Hin))).
Defined.

(** The run [no_task]: the disconnect is all the scheduler has read. *)
Lemma disconnect_is_read_last_witness :
  None ∈ received (Store.log (snd (run no_task client))) /\
  received (Store.log (snd (run no_task client))) =
    map Some (bundles (Store.log (snd (run no_task client)))) ++ [None].
Proof.
  assert (None ∈ received (Store.log (snd (run no_task client)))) as Hin.
  { vm_compute. apply list_elem_of_here. }
  split; [exact Hin|].
  exact (proj1 (disconnect_is_read_last 1 3 3600 "sh -c '{}'" 0 no_task Hin)).
Defined.

(** The template [echo {} >> {}.log] and the arguments [exit 7]. *)
Lemma every_marker_is_replaced_witness :
  exists m' st' x',
    TaskExecutor.start_task (OS false None) (echoing, snd client) =
      Return TaskState.WAIT_TASK (m', st') /\
    TaskExecutor.task m' = Some x' /\
    Task.command x' = Some "echo exit 7 >> exit 7.log"%string.
Proof.
  destruct (every_marker_is_replaced echoing (snd client) (OS false None) t1
              ["echo "; " >> "; ".log"]%string eq_refl ltac:(discriminate)
              ltac:(repeat constructor) eq_refl eq_refl)
    as (m' & st' & x' & Hstart & Htask & Hcmd & _).
  exists m', st', x'. split; [exact Hstart|]. split; [exact Htask|]. exact Hcmd.
Defined.


(** The collector [holding_t1], an hour after its last send. *)
Lemma idle_collector_flushes_by_the_clock_witness :
  exists th3 m4 st4,
    step_collector th3 an_hour_later = (Thread.Build Running m4, st4) /\
    QueueClient.completed (Store.client st4) = [[pack finished_t1]] /\
    ClientCollector.previous_send m4 = Some 3600000000.
Proof.
  assert (inject_Z (ClientCollector.bundlewait holding_t1) <=
          total_seconds (Store.clock an_hour_later - 0))%Q as Hwait.
  { unfold Qle. cbn. lia. }
  destruct (idle_collector_flushes_by_the_clock holding_t1 an_hour_later 0
              eq_refl eq_refl eq_refl eq_refl Hwait)
    as (th1 & th2 & th3 & m4 & st4 & _ & _ & _ & _ & _ & _ & Hput & _ & _ & Hsent & Hprev).
  exists th3, m4, st4. split; [exact Hput|]. split; [exact Hsent|exact Hprev].
Defined.

End MoreConcreteRuns.
